(** * Coding-Playground: the DLA generator and the Metropolis-Hastings sampler

    A shallow embedding of [dla_generator.py] (function [generate_dla_grid]
    with its helper class [C]) and of [metropolis_hastings_algorithm.py]
    (function [metropolis_hastings]), read as Python 3 with NumPy, followed by
    the properties of the two programs.

    Conventions of the embedding.
    - A Python call that may raise returns a [result]; a loop whose number of
      iterations depends on the random draws consumes a finite prefix of the
      random stream and reports [NeedsMoreDraws] when the prefix is used up
      while the loop is still running.
    - The random number generator is an explicit argument: the values drawn
      are inputs of the model.
    - The 2-D boolean array is a list of rows.  NumPy indexing is written
      out: an index [i] of an axis of length [n] is valid when
      [-n <= i < n], a negative one counts from the end, any other raises
      [IndexError].
    - The radius held by the grid is the integer 10 or a Euclidean norm
      [(dx**2.0 + dy**2.0)**0.5] of an integer vector, so it is always the
      square root of an integer; it is stored as that integer ([root]), and
      the only operations the program applies to it, comparisons, are decided
      exactly on the squares. *)

From Stdlib Require Import ZArith QArith Qround Lia List Bool.
From Stdlib Require Import Floats.PrimFloat.
From stdpp Require Import base list vector fin relations.

Open Scope Z_scope.

(** ** Exceptions *)

(** The exception classes that matter here.  [ValueError] and [IndexError]
    are raised by NumPy, [ZeroDivisionError] by float division.
    [InvalidSizeError] is the error kind named by the specification; it is
    part of the universe of exception classes so that statements about it
    can be written, and no path of the source raises it. *)
Inductive exn : Set :=
  | ValueError
  | IndexError
  | ZeroDivisionError
  | InvalidSizeError.

Inductive result (A : Type) : Type :=
  | Ok (a : A)
  | Raise (e : exn).
Arguments Ok {A} a.
Arguments Raise {A} e.

Definition bind {A B : Type} (r : result A) (k : A -> result B) : result B :=
  match r with
  | Ok a => k a
  | Raise e => Raise e
  end.

Notation "'let?' x ':=' r 'in' k" := (bind r (fun x => k))
  (at level 10, x name, r at level 100, k at level 200).

(** ** Positions *)

Definition position : Set := (Z * Z)%type.

Definition padd (a b : position) : position := (fst a + fst b, snd a + snd b).

(** ** The array *)

Module Ndarray.

Abbreviation ndarray := (list (list bool)).

(** [np.zeros((n, m), dtype=np.bool)]; NumPy refuses a negative dimension
    with [ValueError]. *)
Definition zeros (n m : Z) : result ndarray :=
  if (n <? 0) || (m <? 0) then Raise ValueError
  else Ok (replicate (Z.to_nat n) (replicate (Z.to_nat m) false)).

(** [a.shape] *)
Definition shape (a : ndarray) : Z * Z :=
  (Z.of_nat (length a), Z.of_nat (length (hd [] a))).

(** Resolution of one index against an axis of length [n]. *)
Definition norm_index (n : nat) (i : Z) : result nat :=
  if (0 <=? i) && (i <? Z.of_nat n) then Ok (Z.to_nat i)
  else if (- Z.of_nat n <=? i) && (i <? 0) then Ok (Z.to_nat (i + Z.of_nat n))
  else Raise IndexError.

(** [a[i, j]] *)
Definition getitem (a : ndarray) (i j : Z) : result bool :=
  let? r := norm_index (length a) i in
  match a !! r with
  | None => Raise IndexError
  | Some row =>
      let? c := norm_index (length row) j in
      match row !! c with
      | None => Raise IndexError
      | Some b => Ok b
      end
  end.

(** [a[i, j] = v] *)
Definition setitem (a : ndarray) (i j : Z) (v : bool) : result ndarray :=
  let? r := norm_index (length a) i in
  match a !! r with
  | None => Raise IndexError
  | Some row =>
      let? c := norm_index (length row) j in
      Ok (<[r := <[c := v]> row]> a)
  end.

(** Number of [True] cells. *)
Definition count_true (a : ndarray) : nat :=
  sum_list_with (fun row => length (filter (fun b => b = true) row)) a.

End Ndarray.
Import Ndarray.

(** ** Numbers that are square roots of integers *)

(** [Root k] stands for the real number [sqrt k]. *)
Record root : Set := Root { radicand : Z }.

(** [sqrt a < sqrt b] *)
Definition root_ltb (a b : root) : bool := radicand a <? radicand b.

(** [sqrt k < q] for a rational [q] (and [0 <= k]): [q] is positive and
    [k < q * q]. *)
Definition root_ltb_Q (r : root) (q : Q) : bool :=
  negb (Qle_bool q 0) && negb (Qle_bool (q * q) (inject_Z (radicand r))).

(** ** Rounding *)

(** NumPy's [round] on a float: to the nearest integer, a tie to the even
    one.  The argument is a rational, which covers every value the program
    rounds with it (halves of integers, exactly representable). *)
Definition np_round (q : Q) : Z :=
  let f := Qfloor q in
  let frac := (q - inject_Z f)%Q in
  match (frac ?= 1 # 2)%Q with
  | Lt => f
  | Gt => f + 1
  | Eq => if Z.even f then f else f + 1
  end.

(** ** The helper class [C] *)

(** A view of the array with the extra attribute [_radius]. *)
Record C : Type := mkC {
  data : ndarray;
  _radius : root
}.

(** The class attribute [_possible_directions]. *)
Definition _possible_directions : vec position 8 :=
  [# (1, 0); (1, 1); (0, 1); (-1, 1); (-1, 0); (-1, -1); (0, -1); (1, -1)].

(** The class attribute [_radius = 10]. *)
Definition initial_radius : root := Root 100.

Definition possible_directions (self : C) : vec position 8 := _possible_directions.

Definition radius (self : C) : root := _radius self.

(** [(np.array(self.shape) / 2).round().astype(int)] *)
Definition center (self : C) : position :=
  let s := shape (data self) in
  (np_round (inject_Z (fst s) / 2), np_round (inject_Z (snd s) / 2)).

Definition set_radius (self : C) (r : root) : C :=
  {| data := data self; _radius := r |}.

(** [min] of the two entries of [self.shape], divided by 2 (true division),
    minus 2. *)
Definition max_radius (self : C) : Q :=
  let s := shape (data self) in
  (inject_Z (Z.min (fst s) (snd s)) / 2 - 2)%Q.

(** [any(self[int(c[0]), int(c[1])] for c in ...)]: the generator is
    consumed from the left and [any] stops at the first [True]; an index
    error met before that propagates. *)
Fixpoint any_getitem (a : ndarray) (cs : list position) : result bool :=
  match cs with
  | [] => Ok false
  | c :: cs' =>
      let? b := getitem a (fst c) (snd c) in
      if b then Ok true else any_getitem a cs'
  end.

Definition has_neighbors (self : C) (coordinate : position) : result bool :=
  any_getitem (data self)
    (map (fun d => padd d coordinate) (vec_to_list _possible_directions)).

(** Squared Euclidean distance of [position] to the center. *)
Definition dist2_center (self : C) (p : position) : Z :=
  let c := center self in
  (fst p - fst c) ^ 2 + (snd p - snd c) ^ 2.

(** [((position - self.center())**2).sum()**0.5 > self._radius] *)
Definition out_of_bounds (self : C) (p : position) : bool :=
  root_ltb (_radius self) (Root (dist2_center self p)).

(** ** [generate_dla_grid] *)

(** What the random number generator yields for one particle: the rounded
    entry offset [[round(cos(entry) * radius), round(sin(entry) * radius)]]
    of the angle [entry = random.random() * 2 * pi], and the successive
    values of [random.randint(0, 7)], numbered from 0 within the walk.  The
    offset is left unconstrained: every statement below holds whatever
    offset the trigonometry produces. *)
Record draws : Type := mkDraws {
  entry_offset : position;
  randint_0_7 : nat -> fin 8
}.

(** How the walk of one particle ended: it stuck at a position, it hit the
    edge test at a position, or it used its 200 steps. *)
Inductive fate : Type :=
  | Stuck (p : position)
  | Escaped (p : position)
  | Exhausted.

(** The test of lines 110-111. *)
Definition hits_edge (grid : C) (p : position) : bool :=
  (fst p <? 0) || (fst p >=? fst (shape (data grid)) - 1) ||
  (snd p <? 0) || (snd p >=? snd (shape (data grid)) - 1).

(** Lines 118-124: mark the cell, then grow the radius when the cell lies
    outside the circle. *)
Definition stick (grid : C) (p : position) : result C :=
  let? a := setitem (data grid) (fst p) (snd p) true in
  let grid := {| data := a; _radius := _radius grid |} in
  Ok (if out_of_bounds grid p
      then set_radius grid (Root (dist2_center grid p))
      else grid).

(** The [for _ in range(200)] loop with [n] iterations left, [i] draws
    already taken. *)
Fixpoint random_walk (grid : C) (rnd : nat -> fin 8) (n i : nat)
    (particle_position : position) : result (C * fate) :=
  match n with
  | O => Ok (grid, Exhausted)
  | S n' =>
      let particle_position :=
        padd particle_position (possible_directions grid !!! rnd i) in
      if hits_edge grid particle_position
      then Ok (grid, Escaped particle_position)
      else
        let? b := has_neighbors grid particle_position in
        if b
        then let? grid' := stick grid particle_position in
             Ok (grid', Stuck particle_position)
        else random_walk grid rnd n' (S i) particle_position
  end.

(** The body of the [while] loop: one particle. *)
Definition particle (grid : C) (d : draws) : result (C * fate) :=
  let particle_position := padd (center grid) (entry_offset d) in
  random_walk grid (randint_0_7 d) 200 0 particle_position.

(** [grid.radius < grid.max_radius()] *)
Definition growing (grid : C) : bool :=
  root_ltb_Q (radius grid) (max_radius grid).

Inductive outcome (A : Type) : Type :=
  | Returned (a : A)
  | Raised (e : exn)
  | NeedsMoreDraws.
Arguments Returned {A} a.
Arguments Raised {A} e.
Arguments NeedsMoreDraws {A}.

(** The [while] loop, fed with the draws of the successive particles. *)
Fixpoint main_loop (rng : list draws) (grid : C) : outcome C :=
  if growing grid then
    match rng with
    | [] => NeedsMoreDraws
    | d :: rng' =>
        match particle grid d with
        | Raise e => Raised e
        | Ok (grid', _) => main_loop rng' grid'
        end
    end
  else Returned grid.

(** Lines 95-98: the array and the seed. *)
Definition seeded_grid (size : Z) : result C :=
  let? a := zeros size size in
  let grid := mkC a initial_radius in
  let? a' := setitem a (fst (center grid)) (snd (center grid)) true in
  Ok (mkC a' initial_radius).

Definition generate_dla_grid (size : Z) (rng : list draws) : outcome C :=
  match seeded_grid size with
  | Raise e => Raised e
  | Ok grid => main_loop rng grid
  end.

(** One iteration of the [while] loop as a transition between grids. *)
Definition step (grid grid' : C) : Prop :=
  growing grid = true /\ exists d f, particle grid d = Ok (grid', f).

(** ** Reading the array *)

(** The cell [(x, y)] of the field, [false] outside of it. *)
Definition cell (a : ndarray) (p : position) : bool :=
  if (0 <=? fst p) && (0 <=? snd p) then
    match a !! Z.to_nat (fst p) with
    | Some row => default false (row !! Z.to_nat (snd p))
    | None => false
    end
  else false.

Definition occupied (grid : C) (p : position) : Prop := cell (data grid) p = true.

(** [a] is an [n] by [n] array. *)
Definition square (n : Z) (a : ndarray) : Prop :=
  Z.of_nat (length a) = n /\ Forall (fun row => Z.of_nat (length row) = n) a.

(** The positions of the field. *)
Definition in_field (n : Z) (p : position) : Prop :=
  0 <= fst p < n /\ 0 <= snd p < n.

(** The 8 lattice neighbours. *)
Definition adjacent (p q : position) : Prop :=
  p <> q /\ Z.abs (fst p - fst q) <= 1 /\ Z.abs (snd p - snd q) <= 1.

(** A position read through NumPy indexing on an axis of length [n]. *)
Definition wrap (n : Z) (p : position) : position := (fst p mod n, snd p mod n).

(** The positions probed by [has_neighbors]. *)
Definition neighbors (p : position) : list position :=
  map (fun d => padd d p) (vec_to_list _possible_directions).

(** The coordinate of the center of an axis of length [n]. *)
Definition center_of (n : Z) : Z := np_round (inject_Z n / 2).

(** ** The invariant of the run *)

(** What holds of the grid at every test of the [while] loop of a run on an
    [n] by [n] field. *)
Record good (n : Z) (grid : C) : Prop := mkGood {
  good_size : 1 <= n;
  good_square : square n (data grid);
  good_seed : occupied grid (center grid);
  good_cells : forall q, occupied grid q ->
      q = center grid \/ (0 <= fst q <= n - 2 /\ 0 <= snd q <= n - 2);
  good_radius : _radius grid = initial_radius \/
      exists c, occupied grid c /\ 100 < dist2_center grid c /\
                _radius grid = Root (dist2_center grid c)
}.

(** [grid'] is [grid] after the particle stuck at [p]. *)
Definition commits (n : Z) (grid : C) (p : position) (grid' : C) : Prop :=
  (0 <= fst p <= n - 2 /\ 0 <= snd p <= n - 2) /\
  (exists q, adjacent p q /\ in_field n q /\ occupied grid q) /\
  square n (data grid') /\
  (forall q, occupied grid' q <-> q = p \/ occupied grid q) /\
  (_radius grid' = _radius grid \/
   (radicand (_radius grid) < dist2_center grid p /\
    _radius grid' = Root (dist2_center grid p))).

(** How a walk may end, and the grid it leaves. *)
Definition walk_result (n : Z) (grid : C) (grid' : C) (f : fate) : Prop :=
  match f with
  | Stuck p => commits n grid p grid'
  | Escaped p => grid' = grid /\ hits_edge grid p = true
  | Exhausted => grid' = grid
  end.

(** The grid states of a run on [size]: those reached from the seeded grid
    by iterations of the loop. *)
Definition run_state (size : Z) (grid : C) : Prop :=
  exists grid0, seeded_grid size = Ok grid0 /\ rtc step grid0 grid.

(** ** Comparing a rational with a square root *)

(** [sqrt k <= q] *)
Definition root_le_Q (r : root) (q : Q) : Prop :=
  (0 <= q)%Q /\ (inject_Z (radicand r) <= q * q)%Q.

(** [q <= sqrt k] *)
Definition Q_le_root (q : Q) (r : root) : Prop :=
  (q <= 0)%Q \/ (q * q <= inject_Z (radicand r))%Q.

(** * [metropolis_hastings] *)

Module MetropolisHastings.

Local Open Scope float_scope.

(** Python's [a / b] on floats: [ZeroDivisionError] when the divisor compares
    equal to zero (either sign), the IEEE quotient otherwise. *)
Definition float_div (a b : float) : result float :=
  if PrimFloat.eqb b 0 then Raise ZeroDivisionError else Ok (a / b).

(** [random.uniform(a, b)], computed as [a + (b - a) * random()]; [u] is the
    value of [random()]. *)
Definition uniform (a b : float) (u : float) : float := a + (b - a) * u.

(** The local variables of the loop. *)
Record mh_state : Set := mkState {
  x : float;
  output : list float;
  burn : Z
}.

Section Sampler.

(** [density_func] is any Python callable on floats: it returns a float or
    raises. *)
Variable density_func : float -> result float.
Variable size : Z.
Variable alpha : float.

(** Line 63. *)
Definition propose (u : float) (s : mh_state) : float :=
  x s + uniform (- alpha) alpha u.

(** Lines 64-68: the ratio, with [ZeroDivisionError] caught and raised
    again as [ZeroDivisionError]; the call on the candidate comes first. *)
Definition probability_ratio (candidate : float) (s : mh_state) : result float :=
  match
    (let? fc := density_func candidate in
     let? fx := density_func (x s) in
     float_div fc fx)
  with
  | Raise ZeroDivisionError => Raise ZeroDivisionError
  | r => r
  end.

(** Lines 69-74. *)
Definition accept (u : float) (ratio candidate : float) (s : mh_state) : mh_state :=
  if uniform 0 1 u <? ratio then
    if (burn s =? 0)%Z
    then {| x := candidate; output := output s ++ [candidate]; burn := burn s |}
    else {| x := candidate; output := output s; burn := (burn s - 1)%Z |}
  else s.

(** The [while] loop on the values [random()] returns in turn. *)
Fixpoint mh_loop (rng : list float) (s : mh_state) : outcome (list float) :=
  if (Z.of_nat (length (output s)) =? size)%Z then Returned (output s)
  else
    match rng with
    | [] => NeedsMoreDraws
    | u1 :: rng1 =>
        let candidate := propose u1 s in
        match probability_ratio candidate s with
        | Raise e => Raised e
        | Ok ratio =>
            match rng1 with
            | [] => NeedsMoreDraws
            | u2 :: rng2 => mh_loop rng2 (accept u2 ratio candidate s)
            end
        end
    end.

Definition metropolis_hastings (burn0 : Z) (rng : list float) : outcome (list float) :=
  match rng with
  | [] => NeedsMoreDraws
  | u0 :: rng' =>
      mh_loop rng' {| x := uniform (- alpha) alpha u0; output := []; burn := burn0 |}
  end.



End Sampler.

(** A density on floats that vanishes outside of (-1, 1). *)
Definition tent (v : float) : result float :=
  if PrimFloat.abs v <? 1 then Ok (1 - PrimFloat.abs v) else Ok 0.

End MetropolisHastings.

(** ** Connection to the seed *)

(** [linked grid p]: the occupied cell [p] is joined to the center by a chain
    of occupied cells, each one a lattice neighbour of the next. *)
Inductive linked (grid : C) : position -> Prop :=
  | linked_center :
      occupied grid (center grid) -> linked grid (center grid)
  | linked_next p q :
      occupied grid p -> adjacent p q -> linked grid q -> linked grid p.

(** ** The accepted candidates of the sampler *)

Module SamplerTrace.
Import MetropolisHastings.

Section Trace.

Variable density_func : float -> result float.
Variable size : Z.
Variable alpha : float.

(** The candidates that pass the test of line 69, in order, while the loop
    runs from state [s] on the draws [rng]. *)
Fixpoint accepted (rng : list float) (s : mh_state) : list float :=
  if (Z.of_nat (length (output s)) =? size)%Z then []
  else
    match rng with
    | [] => []
    | u1 :: rng1 =>
        let candidate := propose alpha u1 s in
        match probability_ratio density_func candidate s with
        | Raise _ => []
        | Ok ratio =>
            match rng1 with
            | [] => []
            | u2 :: rng2 =>
                (if PrimFloat.ltb (uniform 0 1 u2) ratio then [candidate] else [])
                ++ accepted rng2 (accept u2 ratio candidate s)
            end
        end
    end.

End Trace.

(** Draws on which the sampler, with the density [tent], [alpha = 0.25] and
    one burn-in sample, returns one sample. *)
Definition tent_draws : list float :=
  [0.5; 0.5; 0.5; 0.75; 0.5]%float.

End SamplerTrace.

(** ** Concrete grids and draws used in the examples below *)

Definition blank_grid : C := mkC [] initial_radius.

(** The seeded grids of sizes 3, 25 and 27. *)
Definition seed3 : C :=
  Eval vm_compute in match seeded_grid 3 with Ok g => g | Raise _ => blank_grid end.
Definition seed25 : C :=
  Eval vm_compute in match seeded_grid 25 with Ok g => g | Raise _ => blank_grid end.
Definition seed27 : C :=
  Eval vm_compute in match seeded_grid 27 with Ok g => g | Raise _ => blank_grid end.

(** Draws of a particle that enters at angle 0, that is with the offset
    [(round(radius), 0)], equal to [(10, 0)] as long as the radius is below
    10.5, and then always takes direction number [k]. *)
Definition east_entry (k : fin 8) : draws := mkDraws (10, 0) (fun _ => k).

(** Nine particles walking straight towards the seed, one that sticks
    diagonally above the entry point, one that sticks one step further out. *)
Definition rng25 : list draws :=
  replicate 9 (east_entry 4%fin) ++ [east_entry 2%fin; east_entry 0%fin].

(** The 25 by 25 grid after the first particle of [rng25]. *)
Definition seed25_next : C :=
  Eval vm_compute in
    match particle seed25 (east_entry 4%fin) with
    | Ok (g, _) => g
    | Raise _ => blank_grid
    end.

(** The grid returned for size 25 on [rng25]. *)
Definition final25 : C :=
  Eval vm_compute in
    match generate_dla_grid 25 rng25 with
    | Returned g => g
    | _ => blank_grid
    end.

(** ** Facts about indexing *)

Lemma norm_index_wrap (len : nat) (i : Z) :
  - Z.of_nat len <= i < Z.of_nat len ->
  norm_index len i = Ok (Z.to_nat (i mod Z.of_nat len)).
Proof.
  intros Hi. unfold norm_index.
  destruct (Z.leb_spec 0 i) as [Hpos | Hneg]; simpl.
  - destruct (Z.ltb_spec i (Z.of_nat len)); [| lia].
    rewrite Z.mod_small by lia. reflexivity.
  - destruct (Z.leb_spec (- Z.of_nat len) i); [| lia].
    destruct (Z.ltb_spec i 0); [| lia]. simpl.
    f_equal. f_equal.
    apply Z.mod_unique with (q := -1); lia.
Qed.

Lemma norm_index_out (len : nat) (i : Z) :
  i < - Z.of_nat len \/ Z.of_nat len <= i ->
  norm_index len i = Raise IndexError.
Proof.
  intros Hi. unfold norm_index.
  destruct (Z.leb_spec 0 i), (Z.ltb_spec i (Z.of_nat len)),
    (Z.leb_spec (- Z.of_nat len) i), (Z.ltb_spec i 0); simpl; try reflexivity; lia.
Qed.

Lemma square_shape n a : square n a -> shape a = (n, n).
Proof.
  intros [Hlen Hrows]. unfold shape. rewrite Hlen. f_equal.
  destruct a as [| row a']; simpl in *; [lia |].
  inversion Hrows; subst. assumption.
Qed.

Lemma square_row n a r row :
  square n a -> a !! r = Some row -> Z.of_nat (length row) = n.
Proof.
  intros [_ Hrows] Hr. rewrite Forall_lookup in Hrows. exact (Hrows r row Hr).
Qed.

Lemma square_lookup n a (r : nat) :
  square n a -> Z.of_nat r < n -> exists row, a !! r = Some row.
Proof.
  intros [Hlen _] Hr. apply lookup_lt_is_Some_2. lia.
Qed.

Lemma cell_in_field n a p : square n a -> cell a p = true -> in_field n p.
Proof.
  intros Hsq. unfold cell, in_field.
  destruct (Z.leb_spec 0 (fst p)), (Z.leb_spec 0 (snd p)); simpl; try discriminate.
  destruct (a !! Z.to_nat (fst p)) as [row |] eqn:Hrow; [| discriminate].
  destruct (row !! Z.to_nat (snd p)) as [b |] eqn:Hb; [| discriminate].
  intros _.
  pose proof (square_row _ _ _ _ Hsq Hrow) as Hlen.
  apply lookup_lt_Some in Hrow. apply lookup_lt_Some in Hb.
  destruct Hsq as [Hn _]. lia.
Qed.

Lemma getitem_square n a i j :
  square n a -> - n <= i < n -> - n <= j < n ->
  getitem a i j = Ok (cell a (i mod n, j mod n)).
Proof.
  intros Hsq Hi Hj. pose proof Hsq as [Hlen _].
  assert (0 < n) as Hn by lia.
  pose proof (Z.mod_pos_bound i n Hn) as Hbi.
  pose proof (Z.mod_pos_bound j n Hn) as Hbj.
  unfold getitem. rewrite norm_index_wrap by lia. simpl. rewrite Hlen.
  destruct (square_lookup n a (Z.to_nat (i mod n)) Hsq ltac:(lia)) as [row Hrow].
  rewrite Hrow.
  pose proof (square_row _ _ _ _ Hsq Hrow) as Hrl.
  rewrite norm_index_wrap by lia. simpl. rewrite Hrl.
  unfold cell. simpl.
  destruct (Z.leb_spec 0 (i mod n)); [| lia].
  destruct (Z.leb_spec 0 (j mod n)); [| lia]. simpl.
  rewrite Hrow.
  destruct (lookup_lt_is_Some_2 row (Z.to_nat (j mod n)) ltac:(lia)) as [b Hb].
  rewrite Hb. reflexivity.
Qed.

Lemma getitem_out a i j :
  i < - Z.of_nat (length a) \/ Z.of_nat (length a) <= i ->
  getitem a i j = Raise IndexError.
Proof.
  intros Hi. unfold getitem. rewrite norm_index_out by assumption. reflexivity.
Qed.

Lemma setitem_square n a p v :
  square n a -> in_field n p ->
  exists a', setitem a (fst p) (snd p) v = Ok a' /\ square n a' /\
    forall q, cell a' q = if decide (q = p) then v else cell a q.
Proof.
  intros Hsq [Hi Hj]. pose proof Hsq as [Hlen Hrows].
  unfold setitem. rewrite norm_index_wrap by lia. cbn [bind]. rewrite Hlen.
  rewrite !Z.mod_small by lia.
  destruct (square_lookup n a (Z.to_nat (fst p)) Hsq ltac:(lia)) as [row Hrow].
  rewrite Hrow.
  pose proof (square_row _ _ _ _ Hsq Hrow) as Hrl.
  rewrite norm_index_wrap by lia. cbn [bind]. rewrite Hrl.
  rewrite !Z.mod_small by lia.
  eexists; split; [reflexivity |]. split.
  - split; [rewrite length_insert; assumption |].
    apply Forall_insert; [assumption |]. rewrite length_insert. assumption.
  - intros q. unfold cell.
    destruct (Z.leb_spec 0 (fst q)) as [Hq1 | Hq1],
             (Z.leb_spec 0 (snd q)) as [Hq2 | Hq2]; simpl;
      try (destruct (decide (q = p)) as [-> |]; [lia | reflexivity]).
    destruct (decide (Z.to_nat (fst q) = Z.to_nat (fst p))) as [He1 | Hn1].
    + rewrite He1. rewrite list_lookup_insert_eq by lia. rewrite Hrow.
      destruct (decide (Z.to_nat (snd q) = Z.to_nat (snd p))) as [He2 | Hn2].
      * rewrite He2. rewrite list_lookup_insert_eq by lia. simpl.
        destruct (decide (q = p)) as [| Hne]; [reflexivity |].
        exfalso. apply Hne. destruct q, p; simpl in *. f_equal; lia.
      * rewrite list_lookup_insert_ne by congruence.
        destruct (decide (q = p)) as [-> |]; [congruence | reflexivity].
    + rewrite list_lookup_insert_ne by congruence.
      destruct (decide (q = p)) as [-> |]; [congruence | reflexivity].
Qed.

(** ** Facts about [has_neighbors] *)


Lemma any_getitem_square n a cs :
  square n a ->
  Forall (fun c => (- n <= fst c < n) /\ (- n <= snd c < n)) cs ->
  any_getitem a cs = Ok (existsb (fun c => cell a (wrap n c)) cs).
Proof.
  intros Hsq Hcs. induction Hcs as [| c cs [Hc1 Hc2] _ IH]; simpl; [reflexivity |].
  rewrite (getitem_square n) by assumption. cbn [bind]. fold (wrap n c).
  destruct (cell a (wrap n c)); simpl; [reflexivity | exact IH].
Qed.


Lemma neighbors_adjacent p q : q ∈ neighbors p <-> adjacent p q.
Proof.
  unfold neighbors, adjacent, padd. destruct p as [x y], q as [u v]. simpl.
  rewrite !elem_of_cons, elem_of_nil. split.
  - intros H. repeat (destruct H as [H | H]); try contradiction;
      inversion H; subst; (split; [intros E; inversion E; lia | lia]).
  - intros [Hne [H1 H2]].
    assert (u = x - 1 \/ u = x \/ u = x + 1) as Hu by lia.
    assert (v = y - 1 \/ v = y \/ v = y + 1) as Hv by lia.
    destruct Hu as [-> | [-> | ->]], Hv as [-> | [-> | ->]];
      try (exfalso; apply Hne; reflexivity);
      repeat first [ left; f_equal; lia | right ].
Qed.

Lemma has_neighbors_square n grid p :
  square n (data grid) ->
  0 <= fst p <= n - 2 -> 0 <= snd p <= n - 2 ->
  has_neighbors grid p =
    Ok (existsb (fun c => cell (data grid) (wrap n c)) (neighbors p)).
Proof.
  intros Hsq H1 H2. unfold has_neighbors. fold (neighbors p).
  apply any_getitem_square; [assumption |].
  apply Forall_forall. intros q Hq. apply neighbors_adjacent in Hq.
  destruct Hq as [_ [Ha Hb]]. lia.
Qed.

Lemma wrap_in_field n p : in_field n p -> wrap n p = p.
Proof.
  intros [H1 H2]. unfold wrap. rewrite !Z.mod_small by assumption.
  destruct p; reflexivity.
Qed.

(** A neighbour of a position of [[0, n-2]] squared that is not in the field
    is read in the last row or the last column. *)
Lemma wrap_off_field n p q :
  0 <= fst p <= n - 2 -> 0 <= snd p <= n - 2 -> adjacent p q ->
  ~ in_field n q -> fst (wrap n q) = n - 1 \/ snd (wrap n q) = n - 1.
Proof.
  intros H1 H2 [_ [Ha Hb]] Hout. unfold in_field in Hout. unfold wrap. simpl.
  assert (fst q = -1 \/ snd q = -1) as [E | E] by lia; rewrite E; [left | right];
    symmetry; apply Z.mod_unique with (q := -1); lia.
Qed.

(** With the last row and column empty, wrapped reads see nothing. *)
Lemma existsb_neighbors_in_field n a p :
  square n a ->
  0 <= fst p <= n - 2 -> 0 <= snd p <= n - 2 ->
  (forall q, cell a q = true -> fst q <> n - 1 /\ snd q <> n - 1) ->
  existsb (fun c => cell a (wrap n c)) (neighbors p) = true <->
  exists q, adjacent p q /\ in_field n q /\ cell a q = true.
Proof.
  intros Hsq H1 H2 Hlast. rewrite existsb_exists. split.
  - intros [q [Hq Hc]]. apply list_elem_of_In, neighbors_adjacent in Hq.
    exists q. split; [assumption |].
    destruct (decide (in_field n q)) as [Hin | Hout].
    + rewrite wrap_in_field in Hc by assumption. auto.
    + exfalso. destruct (Hlast _ Hc) as [L1 L2].
      destruct (wrap_off_field n p q H1 H2 Hq Hout); contradiction.
  - intros [q [Hq [Hin Hc]]]. exists q. split.
    + apply list_elem_of_In, neighbors_adjacent. assumption.
    + rewrite wrap_in_field by assumption. assumption.
Qed.

(** ** Facts about the center and the radius test *)

(** Half of an integer, rounded with ties to even. *)
Lemma np_round_half (n : Z) :
  np_round (inject_Z n / 2) =
    if Z.even n then n / 2 else if Z.even (n / 2) then n / 2 else n / 2 + 1.
Proof.
  unfold np_round, Qfloor, Qcompare, Qminus, Qplus, Qopp, Qdiv, Qmult, Qinv, inject_Z.
  cbn [Qnum Qden]. change (Z.pos (1 * 2 * 1)) with 2. change (Z.pos (1 * 2)) with 2.
  rewrite !Z.mul_1_r, !Z.mul_1_l.
  pose proof (Z.div_mod n 2 ltac:(lia)) as Hdm.
  pose proof (Z.mod_pos_bound n 2 ltac:(lia)) as Hb.
  destruct (Z.even n) eqn:He.
  - apply Z.even_spec in He. destruct He as [k Hk].
    destruct (Z.compare_spec ((n + - (n / 2) * 2) * 2) 2); [lia | reflexivity | lia].
  - assert (Z.odd n = true) as Ho by (rewrite <- Z.negb_even, He; reflexivity).
    apply Z.odd_spec in Ho. destruct Ho as [k Hk].
    destruct (Z.compare_spec ((n + - (n / 2) * 2) * 2) 2); [reflexivity | lia | lia].
Qed.


Lemma center_square n grid :
  square n (data grid) -> center grid = (center_of n, center_of n).
Proof.
  intros Hsq. unfold center. rewrite (square_shape _ _ Hsq). reflexivity.
Qed.

Lemma center_of_bounds n : 1 <= n -> 0 <= center_of n < n.
Proof.
  intros Hn. unfold center_of. rewrite np_round_half.
  destruct (Z.even n) eqn:He; [| destruct (Z.even (n / 2)) eqn:He2].
  - apply Z.even_spec in He. destruct He as [k ->].
    replace (2 * k / 2) with k by (apply Z.div_unique with (r := 0); lia).
    lia.
  - pose proof (Z.div_mod n 2 ltac:(lia)). pose proof (Z.mod_pos_bound n 2 ltac:(lia)). lia.
  - assert (n <> 1) by (intros ->; discriminate He2).
    pose proof (Z.div_mod n 2 ltac:(lia)). pose proof (Z.mod_pos_bound n 2 ltac:(lia)).
    assert (Z.odd n = true) as Ho by (rewrite <- Z.negb_even, He; reflexivity).
    apply Z.odd_spec in Ho. destruct Ho as [k Hk]. lia.
Qed.

Lemma center_of_inner n : 25 <= n -> 12 <= center_of n <= n - 2.
Proof.
  intros Hn. unfold center_of. rewrite np_round_half.
  pose proof (Z.div_mod n 2 ltac:(lia)). pose proof (Z.mod_pos_bound n 2 ltac:(lia)).
  destruct (Z.even n); [| destruct (Z.even (n / 2))]; lia.
Qed.

(** The loop test, on the squares. *)
Lemma growing_square n grid :
  square n (data grid) ->
  growing grid = true <-> 4 < n /\ 4 * radicand (_radius grid) < (n - 4) ^ 2.
Proof.
  intros Hsq. unfold growing, radius, max_radius, root_ltb_Q.
  rewrite (square_shape _ _ Hsq). cbn [fst snd]. rewrite Z.min_id.
  rewrite andb_true_iff, !negb_true_iff.
  rewrite <- !not_true_iff_false, !Qle_bool_iff.
  unfold Qle, Qminus, Qplus, Qopp, Qdiv, Qmult, Qinv, inject_Z.
  cbn [Qnum Qden]. change (Z.pos (1 * 2 * 1 * (1 * 2 * 1))) with 4.
  change (Z.pos (1 * 2 * 1)) with 2. lia.
Qed.

(** ** The fresh grid *)

Lemma zeros_square n : 0 <= n ->
  zeros n n = Ok (replicate (Z.to_nat n) (replicate (Z.to_nat n) false)) /\
  square n (replicate (Z.to_nat n) (replicate (Z.to_nat n) false)).
Proof.
  intros Hn. unfold zeros. destruct (Z.ltb_spec n 0); [lia |]. simpl.
  split; [reflexivity |]. split.
  - rewrite length_replicate. lia.
  - apply Forall_replicate. rewrite length_replicate. lia.
Qed.

Lemma cell_replicate (k m : nat) p :
  cell (replicate k (replicate m false)) p = false.
Proof.
  unfold cell. destruct ((0 <=? fst p) && (0 <=? snd p)); [| reflexivity].
  destruct (replicate k (replicate m false) !! Z.to_nat (fst p)) as [row |] eqn:Hrow;
    [| reflexivity].
  apply lookup_replicate in Hrow. destruct Hrow as [-> _].
  destruct (replicate m false !! Z.to_nat (snd p)) as [b |] eqn:Hb; [| reflexivity].
  apply lookup_replicate in Hb. destruct Hb as [-> _]. reflexivity.
Qed.

Lemma no_true_replicate (j : nat) :
  length (filter (fun b => b = true) (replicate j false)) = 0%nat.
Proof.
  induction j as [| j IHj]; simpl; [reflexivity |].
  rewrite filter_cons_False by discriminate. exact IHj.
Qed.

Lemma count_true_replicate (k m : nat) :
  count_true (replicate k (replicate m false)) = 0%nat.
Proof.
  unfold count_true. induction k as [| k IH]; simpl; [reflexivity |].
  rewrite IH, no_true_replicate. reflexivity.
Qed.

Lemma count_true_one (k m r c : nat) :
  (r < k)%nat -> (c < m)%nat ->
  count_true (<[r := <[c := true]> (replicate m false)]> (replicate k (replicate m false)))
  = 1%nat.
Proof.
  intros Hr Hc. rewrite !insert_replicate_lt by assumption.
  unfold count_true. rewrite sum_list_with_app. simpl.
  fold (count_true (replicate r (replicate m false))).
  fold (count_true (replicate (k - S r) (replicate m false))).
  rewrite !count_true_replicate.
  rewrite filter_app, filter_cons_True by reflexivity.
  rewrite length_app. simpl.
  rewrite !no_true_replicate. reflexivity.
Qed.

(** ** Facts about the invariant *)

Lemma good_radius_ge n grid : good n grid -> 100 <= radicand (_radius grid).
Proof.
  intros G. destruct (good_radius _ _ G) as [-> | [c [_ [Hc ->]]]]; simpl; lia.
Qed.

Lemma growing_large n grid : good n grid -> growing grid = true -> 25 <= n.
Proof.
  intros G Hg. apply (growing_square n) in Hg; [| exact (good_square _ _ G)].
  pose proof (good_radius_ge _ _ G). nia.
Qed.

Lemma good_last_free n grid :
  good n grid -> 25 <= n ->
  forall q, cell (data grid) q = true -> fst q <> n - 1 /\ snd q <> n - 1.
Proof.
  intros G Hn q Hq. destruct (good_cells _ _ G q Hq) as [-> | ?]; [| lia].
  rewrite (center_square n) by exact (good_square _ _ G). simpl.
  pose proof (center_of_inner n Hn). lia.
Qed.

Lemma hits_edge_square n grid p :
  square n (data grid) ->
  hits_edge grid p = true <->
  fst p < 0 \/ n - 1 <= fst p \/ snd p < 0 \/ n - 1 <= snd p.
Proof.
  intros Hsq. unfold hits_edge. rewrite (square_shape _ _ Hsq). cbn [fst snd].
  rewrite !orb_true_iff, !Z.ltb_lt, !Z.geb_le. tauto.
Qed.

Lemma stick_commits n grid p :
  good n grid -> 25 <= n ->
  0 <= fst p <= n - 2 -> 0 <= snd p <= n - 2 ->
  has_neighbors grid p = Ok true ->
  exists grid', stick grid p = Ok grid' /\ commits n grid p grid'.
Proof.
  intros G Hn H1 H2 Hnb. pose proof (good_square _ _ G) as Hsq.
  rewrite (has_neighbors_square n) in Hnb by assumption.
  injection Hnb as Hnb.
  apply (existsb_neighbors_in_field n) in Hnb;
    [| assumption | assumption | assumption | exact (good_last_free _ _ G Hn)].
  destruct (setitem_square n (data grid) p true Hsq) as [a' [Hset [Hsq' Hcell]]];
    [split; lia |].
  unfold stick. rewrite Hset. cbn [bind].
  set (g1 := {| data := a'; _radius := _radius grid |}).
  assert (dist2_center g1 p = dist2_center grid p) as Hd.
  { unfold dist2_center. rewrite !(center_square n) by assumption. reflexivity. }
  eexists; split; [reflexivity |].
  assert (data (if out_of_bounds g1 p
                then set_radius g1 (Root (dist2_center g1 p)) else g1) = a') as Hdata
    by (destruct (out_of_bounds g1 p); reflexivity).
  unfold commits. split; [lia |]. split; [exact Hnb |].
  split; [rewrite Hdata; exact Hsq' |]. split.
  - intros q. unfold occupied. rewrite Hdata, Hcell.
    destruct (decide (q = p)); intuition congruence.
  - unfold out_of_bounds, root_ltb. cbn [_radius radicand g1]. rewrite !Hd.
    destruct (Z.ltb_spec (radicand (_radius grid)) (dist2_center grid p)).
    + right. split; [assumption |]. reflexivity.
    + left. reflexivity.
Qed.


(** A walk on a good grid never raises. *)
Lemma random_walk_good n grid rnd :
  good n grid -> 25 <= n ->
  forall m i p, exists grid' f,
    random_walk grid rnd m i p = Ok (grid', f) /\ walk_result n grid grid' f.
Proof.
  intros G Hn. pose proof (good_square _ _ G) as Hsq.
  induction m as [| m IH]; intros i p; simpl.
  - exists grid, Exhausted. split; reflexivity.
  - set (p' := padd p (possible_directions grid !!! rnd i)).
    destruct (hits_edge grid p') eqn:He.
    + exists grid, (Escaped p'). split; [reflexivity |]. split; [reflexivity | exact He].
    + assert (0 <= fst p' <= n - 2 /\ 0 <= snd p' <= n - 2) as [H1 H2].
      { apply not_true_iff_false in He. rewrite (hits_edge_square n) in He by assumption. lia. }
      rewrite (has_neighbors_square n) by assumption. cbn [bind].
      destruct (existsb _ (neighbors p')) eqn:Hnb.
      * destruct (stick_commits n grid p' G Hn H1 H2) as [grid' [Hst Hc]].
        { rewrite (has_neighbors_square n) by assumption. rewrite Hnb. reflexivity. }
        rewrite Hst. cbn [bind]. exists grid', (Stuck p'). split; [reflexivity | exact Hc].
      * apply IH.
Qed.

Lemma commits_center n grid p grid' :
  good n grid -> commits n grid p grid' -> center grid' = center grid.
Proof.
  intros G [_ [_ [Hsq' _]]].
  rewrite !(center_square n); [reflexivity | exact (good_square _ _ G) | exact Hsq'].
Qed.

Lemma commits_good n grid p grid' :
  good n grid -> 25 <= n -> commits n grid p grid' -> good n grid'.
Proof.
  intros G Hn Hc. pose proof (commits_center _ _ _ _ G Hc) as Hcen.
  destruct Hc as [Hp [_ [Hsq' [Hocc Hrad]]]].
  assert (forall q, dist2_center grid' q = dist2_center grid q) as Hd
    by (intros q; unfold dist2_center; rewrite Hcen; reflexivity).
  constructor.
  - exact (good_size _ _ G).
  - exact Hsq'.
  - rewrite Hcen. apply Hocc. right. exact (good_seed _ _ G).
  - intros q Hq. rewrite Hcen. apply Hocc in Hq. destruct Hq as [-> | Hq].
    + right. exact Hp.
    + exact (good_cells _ _ G q Hq).
  - destruct Hrad as [Hr | [Hlt Hr]].
    + rewrite Hr. destruct (good_radius _ _ G) as [Hi | [c [Hc1 [Hc2 Hc3]]]].
      * left. exact Hi.
      * right. exists c. rewrite Hd. split; [apply Hocc; right; exact Hc1 |]. split; assumption.
    + right. exists p. rewrite Hd. split; [apply Hocc; left; reflexivity |].
      split; [| exact Hr]. pose proof (good_radius_ge _ _ G). lia.
Qed.

(** One particle on a good, still growing grid. *)
Lemma particle_good n grid d :
  good n grid -> growing grid = true ->
  exists grid' f, particle grid d = Ok (grid', f) /\ walk_result n grid grid' f /\
    good n grid'.
Proof.
  intros G Hg. pose proof (growing_large _ _ G Hg) as Hn.
  destruct (random_walk_good n grid (randint_0_7 d) G Hn 200%nat 0%nat
              (padd (center grid) (entry_offset d))) as [grid' [f [Hw Hr]]].
  exists grid', f. split; [exact Hw |]. split; [exact Hr |].
  destruct f as [p | p |]; simpl in Hr.
  - exact (commits_good _ _ _ _ G Hn Hr).
  - destruct Hr as [-> _]. exact G.
  - subst. exact G.
Qed.

Lemma step_good n grid grid' : good n grid -> step grid grid' -> good n grid'.
Proof.
  intros G [Hg [d [f Hp]]].
  destruct (particle_good n grid d G Hg) as [g2 [f2 [Hp2 [_ G2]]]].
  rewrite Hp in Hp2. injection Hp2 as <- <-. exact G2.
Qed.

Lemma walk_result_mono n grid grid' f :
  walk_result n grid grid' f ->
  (forall q, occupied grid q -> occupied grid' q) /\
  radicand (_radius grid) <= radicand (_radius grid').
Proof.
  destruct f as [p | p |]; simpl.
  - intros [_ [_ [_ [Hocc Hrad]]]]. split.
    + intros q Hq. apply Hocc. right. exact Hq.
    + destruct Hrad as [-> | [Hlt ->]]; simpl; lia.
  - intros [-> _]. split; [auto | lia].
  - intros ->. split; [auto | lia].
Qed.

Lemma step_mono n grid grid' :
  good n grid -> step grid grid' ->
  (forall q, occupied grid q -> occupied grid' q) /\
  radicand (_radius grid) <= radicand (_radius grid').
Proof.
  intros G [Hg [d [f Hp]]].
  destruct (particle_good n grid d G Hg) as [g2 [f2 [Hp2 [Hw _]]]].
  rewrite Hp in Hp2. injection Hp2 as <- <-.
  exact (walk_result_mono _ _ _ _ Hw).
Qed.

Lemma steps_good n grid grid' : good n grid -> rtc step grid grid' -> good n grid'.
Proof.
  intros G Hs. induction Hs as [| x y z Hxy _ IH]; [exact G |].
  apply IH. exact (step_good _ _ _ G Hxy).
Qed.

Lemma steps_mono n grid grid' :
  good n grid -> rtc step grid grid' ->
  (forall q, occupied grid q -> occupied grid' q) /\
  radicand (_radius grid) <= radicand (_radius grid').
Proof.
  intros G Hs. induction Hs as [| x y z Hxy _ IH]; [split; [auto | lia] |].
  destruct (step_mono _ _ _ G Hxy) as [M1 M2].
  destruct (IH (step_good _ _ _ G Hxy)) as [M3 M4].
  split; [auto | lia].
Qed.

(** The grid built by lines 95-98 for a positive size. *)
Lemma seeded_grid_good size :
  1 <= size ->
  exists grid, seeded_grid size = Ok grid /\ good size grid /\
    _radius grid = initial_radius /\
    (forall q, occupied grid q <-> q = center grid) /\
    count_true (data grid) = 1%nat.
Proof.
  intros Hn. destruct (zeros_square size ltac:(lia)) as [Hz Hsq].
  unfold seeded_grid. rewrite Hz. cbn [bind].
  set (a := replicate (Z.to_nat size) (replicate (Z.to_nat size) false)) in *.
  set (g0 := {| data := a; _radius := initial_radius |}).
  pose proof (center_square size g0 Hsq) as Hc.
  pose proof (center_of_bounds size Hn) as Hb.
  destruct (setitem_square size a (center g0) true Hsq) as [a' [Hset [Hsq' Hcell]]].
  { rewrite Hc. split; simpl; lia. }
  rewrite Hset. cbn [bind]. eexists. split; [reflexivity |].
  set (g := {| data := a'; _radius := initial_radius |}).
  assert (center g = center g0) as Hcg by (rewrite !(center_square size); auto).
  assert (forall q, occupied g q <-> q = center g) as Hocc.
  { intros q. unfold occupied. cbn [data g]. rewrite Hcell, Hcg.
    destruct (decide (q = center g0)); [tauto |].
    unfold a. rewrite cell_replicate. split; [discriminate | contradiction]. }
  split; [| split; [reflexivity | split; [exact Hocc |]]].
  - constructor; try assumption.
    + apply Hocc. reflexivity.
    + intros q Hq. left. apply Hocc. exact Hq.
    + left. reflexivity.
  - cbn [data g]. unfold setitem in Hset.
    rewrite Hc in Hset. cbn [fst snd] in Hset.
    rewrite norm_index_wrap in Hset by (unfold a; rewrite length_replicate; lia).
    cbn [bind] in Hset. unfold a in Hset at 1 2. rewrite length_replicate in Hset.
    rewrite Z2Nat.id in Hset by lia.
    rewrite Z.mod_small in Hset by lia.
    unfold a in Hset at 1. rewrite lookup_replicate_2 in Hset by lia.
    rewrite norm_index_wrap in Hset by (rewrite length_replicate; lia).
    cbn [bind] in Hset. rewrite length_replicate in Hset.
    rewrite Z2Nat.id in Hset by lia.
    rewrite Z.mod_small in Hset by lia.
    injection Hset as <-. unfold a. apply count_true_one; [lia |].
    rewrite length_replicate, Z2Nat.id, Z.mod_small by lia. lia.
Qed.


Lemma seeded_grid_size size grid : seeded_grid size = Ok grid -> 1 <= size.
Proof.
  intros H. destruct (Z.le_gt_cases 1 size) as [| Hs]; [assumption | exfalso].
  unfold seeded_grid, zeros in H.
  destruct (Z.ltb_spec size 0); simpl in H; [discriminate |].
  assert (size = 0) as -> by lia. discriminate H.
Qed.

Lemma run_state_good size grid : run_state size grid -> good size grid.
Proof.
  intros [g0 [H0 Hs]]. pose proof (seeded_grid_size _ _ H0) as Hn.
  destruct (seeded_grid_good size Hn) as [g [Hg [G _]]].
  rewrite H0 in Hg. injection Hg as <-.
  exact (steps_good _ _ _ G Hs).
Qed.

(** The loop only walks along [step], and never raises from a good grid. *)
Lemma main_loop_steps n rng : forall grid,
  good n grid ->
  match main_loop rng grid with
  | Returned grid' => rtc step grid grid' /\ growing grid' = false
  | Raised _ => False
  | NeedsMoreDraws => True
  end.
Proof.
  induction rng as [| d rng IH]; intros grid G; simpl.
  - destruct (growing grid) eqn:Hg; [exact I |]. split; [apply rtc_refl | exact Hg].
  - destruct (growing grid) eqn:Hg; [| split; [apply rtc_refl | exact Hg]].
    destruct (particle_good n grid d G Hg) as [g2 [f [Hp [_ G2]]]].
    rewrite Hp. specialize (IH g2 G2).
    destruct (main_loop rng g2) as [g3 | e |]; [| exact IH | exact I].
    destruct IH as [Hs Hng]. split; [| exact Hng].
    apply rtc_l with g2; [| exact Hs]. split; [exact Hg |]. eauto.
Qed.

Lemma generate_run_state size rng grid :
  generate_dla_grid size rng = Returned grid ->
  run_state size grid /\ growing grid = false.
Proof.
  unfold generate_dla_grid. destruct (seeded_grid size) as [g0 | e] eqn:H0; [| discriminate].
  intros Hm. pose proof (seeded_grid_size _ _ H0) as Hn.
  destruct (seeded_grid_good size Hn) as [g [Hg [G _]]].
  rewrite H0 in Hg. injection Hg as <-.
  pose proof (main_loop_steps size rng g0 G) as Hl. rewrite Hm in Hl.
  destruct Hl as [Hs Hng]. split; [| exact Hng]. exists g0. split; [exact H0 | exact Hs].
Qed.


(** ** Walks without the invariant *)

(** Whatever the grid, a walk that ends leaves the grid untouched unless the
    particle stuck, and the position reported by [Escaped] failed the edge
    test while the one reported by [Stuck] passed it. *)
Lemma random_walk_fate grid rnd : forall m i p grid' f,
  random_walk grid rnd m i p = Ok (grid', f) ->
  match f with
  | Escaped q => grid' = grid /\ hits_edge grid q = true
  | Stuck q => hits_edge grid q = false /\ has_neighbors grid q = Ok true /\
               stick grid q = Ok grid'
  | Exhausted => grid' = grid
  end.
Proof.
  induction m as [| m IH]; intros i p grid' f; simpl.
  - intros H. injection H as <- <-. reflexivity.
  - set (p' := padd p (possible_directions grid !!! rnd i)).
    destruct (hits_edge grid p') eqn:He.
    + intros H. injection H as <- <-. split; [reflexivity | exact He].
    + destruct (has_neighbors grid p') as [[|] | e] eqn:Hnb; cbn [bind].
      * destruct (stick grid p') as [g2 | e] eqn:Hst; cbn [bind]; [| discriminate].
        intros H. injection H as <- <-. repeat split; assumption.
      * apply IH.
      * discriminate.
Qed.

Lemma existsb_neighbors_wrap n a p :
  existsb (fun c => cell a (wrap n c)) (neighbors p) = true <->
  exists q, adjacent p q /\ cell a (wrap n q) = true.
Proof.
  rewrite existsb_exists. split; intros [q [Hq Hc]]; exists q; split; try assumption.
  - apply neighbors_adjacent, list_elem_of_In. exact Hq.
  - apply list_elem_of_In, neighbors_adjacent. exact Hq.
Qed.

Lemma adjacent_inner n p q :
  1 <= fst p <= n - 2 -> 1 <= snd p <= n - 2 -> adjacent p q -> in_field n q.
Proof. intros H1 H2 [_ [Ha Hb]]. unfold in_field. lia. Qed.


Lemma seed25_run_state : run_state 25 seed25.
Proof. exists seed25. split; [vm_compute; reflexivity | apply rtc_refl]. Defined.

Lemma seed25_step : step seed25 seed25_next.
Proof.
  split; [vm_compute; reflexivity |].
  exists (east_entry 4%fin), (Stuck (13, 12)). vm_compute. reflexivity.
Defined.


Lemma not_growing_Q_le_root grid :
  growing grid = false <-> Q_le_root (max_radius grid) (radius grid).
Proof.
  unfold growing, root_ltb_Q, Q_le_root.
  rewrite andb_false_iff, !negb_false_iff, !Qle_bool_iff. reflexivity.
Qed.

(** * Facts about [metropolis_hastings] *)

Module MetropolisHastingsFacts.
Import MetropolisHastings.

Section Sampler.

Variable density_func : float -> result float.
Variable size : Z.
Variable alpha : float.

Hypothesis density_total : forall v, exists y, density_func v = Ok y.



End Sampler.

End MetropolisHastingsFacts.

(** * Properties of [generate_dla_grid] *)

(** ** C1: [has_neighbors] near the edges *)

(** C1, as stated, fails: on the seeded 25 by 25 grid the in-field position
    [(24, 12)] makes [has_neighbors] raise [IndexError] (its first probe is
    row 25), and on the seeded 3 by 3 grid, whose seed is the corner
    [(2, 2)], the position [(0, 0)] gets the answer [True] from the probe of
    [(-1, -1)], read as [(2, 2)], although none of its neighbours inside the
    field is occupied. *)
Lemma has_neighbors_edge_misbehaves :
  (in_field 25 (24, 12) /\ has_neighbors seed25 (24, 12) = Raise IndexError) /\
  (has_neighbors seed3 (0, 0) = Ok true /\
   ~ exists q, adjacent (0, 0) q /\ in_field 3 q /\ occupied seed3 q).
Proof.
  split; [split; [unfold in_field; simpl; lia | vm_compute; reflexivity] |].
  split; [vm_compute; reflexivity |].
  intros [[x y] [[_ [Ha Hb]] [[H1 H2] Hocc]]]. simpl in *.
  assert (x = 0 \/ x = 1) as Hx by lia. assert (y = 0 \/ y = 1) as Hy by lia.
  destruct Hx as [-> | ->], Hy as [-> | ->]; vm_compute in Hocc; discriminate.
Qed.

(** C1 (amended): on an [n] by [n] grid, for a position with both
    coordinates in [[0, n-2]], [has_neighbors] does not raise, and it answers
    [True] exactly when one of the 8 neighbour positions, read with NumPy's
    wrap-around (index -1 is index n-1), is occupied.  When moreover the
    position has both coordinates at least 1, or the last row and the last
    column of the grid are empty, this is: exactly when one of the
    neighbours inside the field is occupied. *)
Theorem has_neighbors_inside n grid p :
  square n (data grid) ->
  0 <= fst p <= n - 2 -> 0 <= snd p <= n - 2 ->
  exists b, has_neighbors grid p = Ok b /\
    (b = true <-> exists q, adjacent p q /\ occupied grid (wrap n q)) /\
    ((1 <= fst p /\ 1 <= snd p) \/
     (forall q, occupied grid q -> fst q <> n - 1 /\ snd q <> n - 1) ->
     (b = true <-> exists q, adjacent p q /\ in_field n q /\ occupied grid q)).
Proof.
  intros Hsq H1 H2. eexists. split; [apply (has_neighbors_square n); assumption |].
  split; [apply existsb_neighbors_wrap |].
  intros [[I1 I2] | Hlast].
  - rewrite existsb_neighbors_wrap. split.
    + intros [q [Hq Hc]]. exists q.
      assert (in_field n q) as Hin by (apply (adjacent_inner n p); [lia | lia | exact Hq]).
      rewrite wrap_in_field in Hc by exact Hin. auto.
    + intros [q [Hq [Hin Hc]]]. exists q. rewrite wrap_in_field by exact Hin. auto.
  - apply existsb_neighbors_in_field; assumption.
Qed.

Lemma has_neighbors_inside_witness :
  exists b, has_neighbors seed25_next (14, 12) = Ok b /\
    (b = true <-> exists q, adjacent (14, 12) q /\ occupied seed25_next (wrap 25 q)) /\
    ((1 <= fst (14, 12) /\ 1 <= snd (14, 12)) \/
     (forall q, occupied seed25_next q -> fst q <> 25 - 1 /\ snd q <> 25 - 1) ->
     (b = true <-> exists q, adjacent (14, 12) q /\ in_field 25 q /\ occupied seed25_next q)).
Proof.
  apply (has_neighbors_inside 25 seed25_next (14, 12)).
  - split; [reflexivity |]. repeat constructor.
  - simpl. lia.
  - simpl. lia.
Defined.

(** ** C2: when a walking particle is discarded *)

(** C2, as stated, fails: on the seeded 25 by 25 grid, the particle that
    enters at [(22, 12)] and walks in direction [(+1, 0)] is discarded at its
    second step, at [(24, 12)], a position of the field. *)
Lemma in_field_particle_discarded :
  in_field 25 (24, 12) /\
  particle seed25 (east_entry 0%fin) = Ok (seed25, Escaped (24, 12)).
Proof. split; [unfold in_field; simpl; lia | vm_compute; reflexivity]. Qed.

(** C2 (amended): on an [n] by [n] grid, the particle is discarded as
    escaped exactly when, after a step, some coordinate is below 0 or at
    least [n - 1]: a step to such a position ends the walk with [Escaped]
    and the grid unchanged, a walk that ends with [Escaped] ends at such a
    position, and a particle that sticks has both coordinates in
    [[0, n-2]]. *)
Theorem escaped_iff_edge n grid rnd m i p :
  square n (data grid) ->
  let p' := padd p (possible_directions grid !!! rnd i) in
  (fst p' < 0 \/ n - 1 <= fst p' \/ snd p' < 0 \/ n - 1 <= snd p' <->
   random_walk grid rnd (S m) i p = Ok (grid, Escaped p')) /\
  (forall k j p0 grid' q, random_walk grid rnd k j p0 = Ok (grid', Escaped q) ->
     grid' = grid /\ (fst q < 0 \/ n - 1 <= fst q \/ snd q < 0 \/ n - 1 <= snd q)) /\
  (forall k j p0 grid' q, random_walk grid rnd k j p0 = Ok (grid', Stuck q) ->
     0 <= fst q <= n - 2 /\ 0 <= snd q <= n - 2).
Proof.
  intros Hsq p'. split; [| split].
  - rewrite <- (hits_edge_square n grid p' Hsq). split.
    + intros He. simpl. fold p'. rewrite He. reflexivity.
    + intros Hw. apply random_walk_fate in Hw. apply Hw.
  - intros k j p0 grid' q Hw. apply random_walk_fate in Hw. destruct Hw as [-> He].
    split; [reflexivity |]. apply (hits_edge_square n grid q Hsq). exact He.
  - intros k j p0 grid' q Hw. apply random_walk_fate in Hw. destruct Hw as [He _].
    apply not_true_iff_false in He. rewrite (hits_edge_square n grid q Hsq) in He. lia.
Qed.

Lemma escaped_iff_edge_witness :
  let p' := padd (23, 12) (possible_directions seed25 !!! (0%fin : fin 8)) in
  (fst p' < 0 \/ 25 - 1 <= fst p' \/ snd p' < 0 \/ 25 - 1 <= snd p' <->
   random_walk seed25 (fun _ => 0%fin) 1 0 (23, 12) = Ok (seed25, Escaped p')) /\
  (forall k j p0 grid' q,
     random_walk seed25 (fun _ => 0%fin) k j p0 = Ok (grid', Escaped q) ->
     grid' = seed25 /\ (fst q < 0 \/ 25 - 1 <= fst q \/ snd q < 0 \/ 25 - 1 <= snd q)) /\
  (forall k j p0 grid' q,
     random_walk seed25 (fun _ => 0%fin) k j p0 = Ok (grid', Stuck q) ->
     0 <= fst q <= 25 - 2 /\ 0 <= snd q <= 25 - 2).
Proof.
  apply (escaped_iff_edge 25 seed25 (fun _ => 0%fin) 0 0 (23, 12)).
  split; [reflexivity |]. repeat constructor.
Defined.

(** ** C3: sizes too small for the loop to run *)

(** C3, as stated, fails: for size 0 the maximum radius [0/2 - 2] is at most
    10, yet the write of the seed into the empty array raises [IndexError]. *)
Lemma size_zero_raises :
  (inject_Z 0 / 2 - 2 <= 10)%Q /\
  forall rng, generate_dla_grid 0 rng = Raised IndexError.
Proof. split; [vm_compute; discriminate | intros rng; reflexivity]. Qed.

Lemma max_radius_small size : (inject_Z size / 2 - 2 <= 10)%Q <-> size <= 24.
Proof.
  unfold Qle, Qminus, Qplus, Qopp, Qdiv, Qmult, Qinv, inject_Z.
  cbn [Qnum Qden]. change (Z.pos (1 * 2 * 1)) with 2. lia.
Qed.

(** C3 (amended): for every size at least 1 whose maximum radius
    [size/2 - 2] is at most 10, [generate_dla_grid] returns, whatever the
    random draws and without taking any, the seeded grid: the loop test
    fails at once, and exactly one cell, the center, is occupied. *)
Theorem small_size_returns_seed size rng :
  1 <= size -> (inject_Z size / 2 - 2 <= 10)%Q ->
  exists grid, generate_dla_grid size rng = Returned grid /\
    seeded_grid size = Ok grid /\ growing grid = false /\
    count_true (data grid) = 1%nat /\
    forall q, occupied grid q <-> q = center grid.
Proof.
  intros Hn Hsmall. apply max_radius_small in Hsmall.
  destruct (seeded_grid_good size Hn) as [g [Hg [G [Hr [Hocc Hcnt]]]]].
  assert (growing g = false) as Hng.
  { apply not_true_iff_false. intros Hgr.
    pose proof (growing_large _ _ G Hgr). lia. }
  exists g. unfold generate_dla_grid. rewrite Hg.
  split; [| auto].
  destruct rng; simpl; rewrite Hng; reflexivity.
Qed.

Lemma small_size_returns_seed_witness :
  exists grid, generate_dla_grid 1 [] = Returned grid /\
    seeded_grid 1 = Ok grid /\ growing grid = false /\
    count_true (data grid) = 1%nat /\
    forall q, occupied grid q <-> q = center grid.
Proof.
  apply (small_size_returns_seed 1 []); [lia | vm_compute; discriminate].
Defined.

(** ** C4: non-positive sizes *)

(** C4, as stated, fails: for size -1 the error is NumPy's [ValueError], and
    for size 0 it is [IndexError]; neither is [InvalidSizeError]. *)
Lemma nonpositive_size_error_class :
  generate_dla_grid (-1) [] = Raised ValueError /\
  generate_dla_grid (-1) [] <> Raised InvalidSizeError /\
  generate_dla_grid 0 [] = Raised IndexError /\
  generate_dla_grid 0 [] <> Raised InvalidSizeError.
Proof. repeat split; try reflexivity; discriminate. Qed.

(** C4 (amended): for every size at most 0, [generate_dla_grid] fails before
    the loop, while building the seeded grid: with [ValueError] from
    [np.zeros] when the size is negative, with [IndexError] from the write of
    the seed when the size is 0. *)
Theorem nonpositive_size_raises size rng :
  size <= 0 ->
  let e := if size <? 0 then ValueError else IndexError in
  seeded_grid size = Raise e /\ generate_dla_grid size rng = Raised e.
Proof.
  intros Hs. unfold generate_dla_grid, seeded_grid, zeros.
  destruct (Z.ltb_spec size 0); simpl.
  - split; reflexivity.
  - assert (size = 0) as -> by lia. split; reflexivity.
Qed.

Lemma nonpositive_size_raises_witness :
  let e := if -3 <? 0 then ValueError else IndexError in
  seeded_grid (-3) = Raise e /\ generate_dla_grid (-3) [] = Raised e.
Proof. apply (nonpositive_size_raises (-3) []). lia. Defined.

(** ** C5: occupancy only grows *)

(** C5: in a run on any size, between a grid state and any later one no
    occupied cell is cleared, the center does not move, and the center cell
    is occupied in both; the grid returned by [generate_dla_grid] is such a
    state. *)
Theorem occupancy_monotonic size grid1 grid2 :
  run_state size grid1 -> rtc step grid1 grid2 ->
  (forall q, occupied grid1 q -> occupied grid2 q) /\
  center grid2 = center grid1 /\
  occupied grid1 (center grid1) /\ occupied grid2 (center grid2) /\
  (forall rng grid, generate_dla_grid size rng = Returned grid -> run_state size grid).
Proof.
  intros Hr Hs. pose proof (run_state_good _ _ Hr) as G1.
  pose proof (steps_good _ _ _ G1 Hs) as G2.
  split; [exact (proj1 (steps_mono _ _ _ G1 Hs)) |].
  split; [rewrite !(center_square size);
          [reflexivity | exact (good_square _ _ G1) | exact (good_square _ _ G2)] |].
  split; [exact (good_seed _ _ G1) |].
  split; [exact (good_seed _ _ G2) |].
  intros rng grid Hg. exact (proj1 (generate_run_state _ _ _ Hg)).
Qed.

Lemma occupancy_monotonic_witness :
  (forall q, occupied seed25 q -> occupied seed25_next q) /\
  center seed25_next = center seed25 /\
  occupied seed25 (center seed25) /\ occupied seed25_next (center seed25_next) /\
  (forall rng grid, generate_dla_grid 25 rng = Returned grid -> run_state 25 grid).
Proof.
  apply (occupancy_monotonic 25 seed25 seed25_next).
  - exact seed25_run_state.
  - apply rtc_once. exact seed25_step.
Defined.

(** ** C6: the radius at termination *)

(** C6, as stated, fails: on the draws [rng25] the run on size 25 returns
    with radius [sqrt 121 = 11], above the maximum radius [25/2 - 2 = 10.5]
    (the last particle stuck at [(23, 12)], at distance 11 of the center
    [(12, 12)]). *)
Lemma final_radius_exceeds_max :
  generate_dla_grid 25 rng25 = Returned final25 /\
  radius final25 = Root 121 /\
  (max_radius final25 == 21 # 2)%Q /\
  ~ root_le_Q (radius final25) (max_radius final25).
Proof.
  split; [vm_compute; reflexivity |].
  split; [reflexivity |].
  split; [vm_compute; reflexivity |].
  intros [_ H]. vm_compute in H. apply H. reflexivity.
Qed.

(** C6 (amended): when [generate_dla_grid] returns, the radius is at least
    the maximum radius (the loop test failed); it is at least the initial
    10, and it is either that initial value or the distance to the center
    of an occupied cell. *)
Theorem final_radius_reaches_max size rng grid :
  generate_dla_grid size rng = Returned grid ->
  Q_le_root (max_radius grid) (radius grid) /\
  100 <= radicand (radius grid) /\
  (radius grid = initial_radius \/
   exists c, occupied grid c /\ radius grid = Root (dist2_center grid c)).
Proof.
  intros Hg. destruct (generate_run_state _ _ _ Hg) as [Hr Hng].
  pose proof (run_state_good _ _ Hr) as G.
  split; [apply not_growing_Q_le_root; exact Hng |].
  split; [exact (good_radius_ge _ _ G) |].
  destruct (good_radius _ _ G) as [Hi | [c [Hc [_ He]]]]; [left; exact Hi |].
  right. exists c. split; assumption.
Qed.

Lemma final_radius_reaches_max_witness :
  Q_le_root (max_radius final25) (radius final25) /\
  100 <= radicand (radius final25) /\
  (radius final25 = initial_radius \/
   exists c, occupied final25 c /\ radius final25 = Root (dist2_center final25 c)).
Proof.
  apply (final_radius_reaches_max 25 rng25 final25). vm_compute. reflexivity.
Defined.

(** ** C7: a particle sticks next to the aggregate *)

(** C7: in a run on any size, a cell that is occupied after an iteration of
    the loop and was not before had, in the grid before that iteration, an
    occupied cell among its 8 lattice neighbours. *)
Theorem committed_cell_has_neighbor size grid grid' c :
  run_state size grid -> step grid grid' ->
  occupied grid' c -> ~ occupied grid c ->
  exists q, adjacent c q /\ in_field size q /\ occupied grid q.
Proof.
  intros Hr [Hgr [d [f Hp]]] Hc' Hc. pose proof (run_state_good _ _ Hr) as G.
  destruct (particle_good size grid d G Hgr) as [g2 [f2 [Hp2 [Hw _]]]].
  rewrite Hp in Hp2. injection Hp2 as <- <-.
  destruct f as [p | p |]; simpl in Hw.
  - destruct Hw as [_ [Hnb [_ [Hocc _]]]].
    apply Hocc in Hc'. destruct Hc' as [-> | Hold]; [exact Hnb | contradiction].
  - destruct Hw as [-> _]. contradiction.
  - subst. contradiction.
Qed.

Lemma committed_cell_has_neighbor_witness :
  exists q, adjacent (13, 12) q /\ in_field 25 q /\ occupied seed25 q.
Proof.
  apply (committed_cell_has_neighbor 25 seed25 seed25_next (13, 12)).
  - exact seed25_run_state.
  - exact seed25_step.
  - vm_compute. reflexivity.
  - vm_compute. discriminate.
Defined.

(** ** C8: the center *)

(** C8, as stated, fails: for sizes 27 and 3 the seed is at [(14, 14)] and
    [(2, 2)], one more than the floor of half the size in each coordinate. *)
Lemma center_not_floor :
  (seeded_grid 27 = Ok seed27 /\ center seed27 = (14, 14) /\
   occupied seed27 (14, 14) /\ (27 / 2, 27 / 2) = (13, 13)) /\
  (seeded_grid 3 = Ok seed3 /\ center seed3 = (2, 2) /\
   occupied seed3 (2, 2) /\ (3 / 2, 3 / 2) = (1, 1)).
Proof. repeat split; vm_compute; reflexivity. Qed.

Lemma even_cases (a : Z) :
  (Z.even a = true /\ exists k, a = 2 * k) \/
  (Z.even a = false /\ exists k, a = 2 * k + 1).
Proof.
  destruct (Z.even a) eqn:He.
  - left. split; [reflexivity |]. apply Z.even_spec. exact He.
  - right. split; [reflexivity |]. apply Z.odd_spec.
    rewrite <- Z.negb_even, He. reflexivity.
Qed.

Lemma center_of_mod4 n :
  center_of n = if n mod 4 =? 3 then n / 2 + 1 else n / 2.
Proof.
  unfold center_of. rewrite np_round_half.
  pose proof (Z.div_mod n 4 ltac:(lia)) as H4.
  pose proof (Z.mod_pos_bound n 4 ltac:(lia)) as B4.
  pose proof (Z.div_mod n 2 ltac:(lia)) as H2.
  pose proof (Z.mod_pos_bound n 2 ltac:(lia)) as B2.
  destruct (even_cases n) as [[-> [k1 K1]] | [-> [k1 K1]]];
    destruct (even_cases (n / 2)) as [[E2 [k2 K2]] | [E2 [k2 K2]]];
    try rewrite E2;
    destruct (Z.eqb_spec (n mod 4) 3); lia.
Qed.

(** C8 (amended): the center, where the seed is set at creation, is
    [(r, r)] with [r] the half of the size rounded to the nearest integer,
    ties to the even one: the floor of [size/2], plus 1 when the size is 3
    modulo 4; it is the only occupied cell of the new grid. *)
Theorem center_is_rounded_half size grid :
  seeded_grid size = Ok grid ->
  let r := if size mod 4 =? 3 then size / 2 + 1 else size / 2 in
  center grid = (r, r) /\ forall q, occupied grid q <-> q = (r, r).
Proof.
  intros Hg r. pose proof (seeded_grid_size _ _ Hg) as Hn.
  destruct (seeded_grid_good size Hn) as [g [Hg' [G [_ [Hocc _]]]]].
  rewrite Hg in Hg'. injection Hg' as <-.
  assert (center grid = (r, r)) as Hc.
  { rewrite (center_square size) by exact (good_square _ _ G).
    rewrite center_of_mod4. reflexivity. }
  split; [exact Hc |]. intros q. rewrite <- Hc. apply Hocc.
Qed.

Lemma center_is_rounded_half_witness :
  let r := if 27 mod 4 =? 3 then 27 / 2 + 1 else 27 / 2 in
  center seed27 = (r, r) /\ forall q, occupied seed27 q <-> q = (r, r).
Proof. apply (center_is_rounded_half 27 seed27). vm_compute. reflexivity. Defined.

(** ** C10: the last row and the last column stay empty *)

(** C10: in a run on any size, every occupied cell is the seed or has both
    coordinates in [[0, size-2]], and every particle that sticks does so at
    a position with both coordinates in [[0, size-2]]. *)
Theorem last_row_column_free size grid :
  run_state size grid ->
  (forall c, occupied grid c ->
     c = center grid \/ (0 <= fst c <= size - 2 /\ 0 <= snd c <= size - 2)) /\
  (forall d grid' p, growing grid = true -> particle grid d = Ok (grid', Stuck p) ->
     0 <= fst p <= size - 2 /\ 0 <= snd p <= size - 2).
Proof.
  intros Hr. pose proof (run_state_good _ _ Hr) as G. split.
  - exact (good_cells _ _ G).
  - intros d grid' p Hgr Hp.
    destruct (particle_good size grid d G Hgr) as [g2 [f2 [Hp2 [Hw _]]]].
    rewrite Hp in Hp2. injection Hp2 as <- <-. simpl in Hw. apply Hw.
Qed.

Lemma last_row_column_free_witness :
  (forall c, occupied seed25_next c ->
     c = center seed25_next \/ (0 <= fst c <= 25 - 2 /\ 0 <= snd c <= 25 - 2)) /\
  (forall d grid' p, growing seed25_next = true ->
     particle seed25_next d = Ok (grid', Stuck p) ->
     0 <= fst p <= 25 - 2 /\ 0 <= snd p <= 25 - 2).
Proof.
  apply (last_row_column_free 25 seed25_next).
  exists seed25. split; [vm_compute; reflexivity |].
  apply rtc_once. exact seed25_step.
Defined.

(** ** C9: the only error of the sampler *)



(** * Further properties of [generate_dla_grid] *)

Lemma seed25_next_run_state : run_state 25 seed25_next.
Proof.
  exists seed25. split; [vm_compute; reflexivity |].
  apply rtc_once. exact seed25_step.
Defined.

Lemma final25_returned : generate_dla_grid 25 rng25 = Returned final25.
Proof. vm_compute. reflexivity. Defined.

(** Induction along a run. *)
Lemma run_state_ind size (P : C -> Prop) :
  (forall g0, seeded_grid size = Ok g0 -> P g0) ->
  (forall g g', run_state size g -> P g -> step g g' -> P g') ->
  forall g, run_state size g -> P g.
Proof.
  intros H0 Hs g [g0 [Hg0 Hr]]. revert g Hr. apply rtc_ind_r.
  - apply H0. exact Hg0.
  - intros y z Hxy Hyz Py. apply (Hs y z); [| exact Py | exact Hyz].
    exists g0. split; assumption.
Qed.

(** The radius after a particle stuck. *)
Lemma stick_radius n grid p grid' :
  square n (data grid) -> in_field n p -> stick grid p = Ok grid' ->
  center grid' = center grid /\
  radicand (_radius grid') = Z.max (radicand (_radius grid)) (dist2_center grid p).
Proof.
  intros Hsq Hin. unfold stick.
  destruct (setitem_square n (data grid) p true Hsq Hin) as [a' [-> [Hsq' _]]].
  cbn [bind]. set (g1 := {| data := a'; _radius := _radius grid |}).
  assert (center g1 = center grid) as Hc
    by (rewrite !(center_square n); [reflexivity | exact Hsq | exact Hsq']).
  assert (dist2_center g1 p = dist2_center grid p) as Hd
    by (unfold dist2_center; rewrite Hc; reflexivity).
  unfold out_of_bounds, root_ltb. cbn [radicand]. rewrite Hd. cbn [_radius g1].
  destruct (Z.ltb_spec (radicand (_radius grid)) (dist2_center grid p)) as [Hlt | Hge];
    intros Hs; injection Hs as <-; (split; [exact Hc |]);
    cbn [_radius set_radius radicand g1]; lia.
Qed.

(** What one iteration of the loop does to a grid of a run: nothing, or the
    commit of one position. *)
Lemma step_cases size grid grid' :
  run_state size grid -> step grid grid' ->
  grid' = grid \/
  exists p, commits size grid p grid' /\ center grid' = center grid /\
    radicand (_radius grid') = Z.max (radicand (_radius grid)) (dist2_center grid p).
Proof.
  intros Hr [Hgr [d [f Hp]]]. pose proof (run_state_good _ _ Hr) as G.
  destruct (particle_good size grid d G Hgr) as [g2 [f2 [Hp2 [Hw _]]]].
  rewrite Hp in Hp2. injection Hp2 as <- <-.
  destruct f as [p | p |]; simpl in Hw.
  - right. exists p. split; [exact Hw |].
    apply random_walk_fate in Hp. destruct Hp as [_ [_ Hst]].
    destruct Hw as [[H1 H2] _].
    apply (stick_radius size); [exact (good_square _ _ G) | split; lia | exact Hst].
  - left. apply Hw.
  - left. exact Hw.
Qed.

Lemma directions_unit (k : fin 8) :
  Z.abs (fst (_possible_directions !!! k)) <= 1 /\
  Z.abs (snd (_possible_directions !!! k)) <= 1.
Proof.
  repeat (inv_fin k; [simpl; lia | intros k]). inv_fin k.
Qed.

Lemma linked_occupied grid p : linked grid p -> occupied grid p.
Proof. intros H. destruct H; assumption. Qed.

Lemma linked_mono grid grid' p :
  center grid' = center grid ->
  (forall q, occupied grid q -> occupied grid' q) ->
  linked grid p -> linked grid' p.
Proof.
  intros Hc Hocc H. induction H as [Hseed | p q Hp Hadj _ IH].
  - rewrite <- Hc. apply linked_center. rewrite Hc. apply Hocc. exact Hseed.
  - apply linked_next with q; [apply Hocc; exact Hp | exact Hadj | exact IH].
Qed.

(** ** X1: a run never raises *)



(** ** X2: the shape of the grid *)

(** X2: the grid returned for [size] is a [size] by [size] array: [size]
    rows of [size] cells each, with [shape] equal to [(size, size)]. *)
Theorem returned_grid_shape size rng grid :
  generate_dla_grid size rng = Returned grid ->
  shape (data grid) = (size, size) /\
  length (data grid) = Z.to_nat size /\
  Forall (fun row => length row = Z.to_nat size) (data grid).
Proof.
  intros Hg. destruct (generate_run_state _ _ _ Hg) as [Hr _].
  pose proof (good_square _ _ (run_state_good _ _ Hr)) as Hsq.
  split; [exact (square_shape _ _ Hsq) |].
  destruct Hsq as [Hlen Hrows]. split; [lia |].
  eapply Forall_impl; [exact Hrows |]. simpl. intros row Hrow. lia.
Qed.

Lemma returned_grid_shape_witness :
  shape (data final25) = (25, 25) /\
  length (data final25) = Z.to_nat 25 /\
  Forall (fun row => length row = Z.to_nat 25) (data final25).
Proof. apply (returned_grid_shape 25 rng25 final25). exact final25_returned. Defined.

(** ** X3: the radius only grows *)

(** X3: along a run the radius never decreases, and it is never below the
    initial 10. *)
Theorem radius_never_decreases size grid1 grid2 :
  run_state size grid1 -> rtc step grid1 grid2 ->
  root_ltb (radius grid2) (radius grid1) = false /\
  root_ltb (radius grid1) initial_radius = false.
Proof.
  intros Hr Hs. pose proof (run_state_good _ _ Hr) as G.
  pose proof (proj2 (steps_mono _ _ _ G Hs)) as Hm.
  pose proof (good_radius_ge _ _ G) as Hge.
  unfold root_ltb, radius. cbn [initial_radius radicand].
  split; apply Z.ltb_ge; assumption.
Qed.

Lemma radius_never_decreases_witness :
  root_ltb (radius seed25_next) (radius seed25) = false /\
  root_ltb (radius seed25) initial_radius = false.
Proof.
  apply (radius_never_decreases 25 seed25 seed25_next).
  - exact seed25_run_state.
  - apply rtc_once. exact seed25_step.
Defined.

(** ** X4: the circle encloses the aggregate *)



(** ** X5: the aggregate is connected *)

(** X5: in every grid state of a run, every occupied cell is joined to the
    seed by a chain of occupied cells in which consecutive cells are lattice
    neighbours. *)
Theorem aggregate_connected size grid c :
  run_state size grid -> occupied grid c -> linked grid c.
Proof.
  intros Hr. revert c. pattern grid. revert grid Hr. apply run_state_ind.
  - intros g0 Hg0 c Hc. pose proof (seeded_grid_size _ _ Hg0) as Hn.
    destruct (seeded_grid_good size Hn) as [g [Hg [_ [_ [Hocc _]]]]].
    rewrite Hg0 in Hg. injection Hg as <-.
    pose proof Hc as Hc'. apply Hocc in Hc'. subst c.
    apply linked_center. exact Hc.
  - intros g g' Hr IH Hst c Hc.
    destruct (step_cases _ _ _ Hr Hst) as [-> | [p [Hcm [Hcen _]]]];
      [apply IH; exact Hc |].
    destruct Hcm as [_ [[q [Hadj [_ Hq]]] [_ [Hocc _]]]].
    assert (forall r, occupied g r -> occupied g' r) as Hmono
      by (intros r Hr0; apply Hocc; right; exact Hr0).
    apply Hocc in Hc. destruct Hc as [-> | Hold].
    + apply linked_next with q; [apply Hocc; left; reflexivity | exact Hadj |].
      apply (linked_mono g g' q Hcen Hmono). apply IH. exact Hq.
    + apply (linked_mono g g' c Hcen Hmono). apply IH. exact Hold.
Qed.

Lemma aggregate_connected_witness : linked seed25_next (13, 12).
Proof.
  apply (aggregate_connected 25 seed25_next (13, 12)).
  - exact seed25_next_run_state.
  - vm_compute. reflexivity.
Defined.

(** ** X6: the aggregate reaches the maximum radius *)

(** X6: for a size of at least 25, the grid returned holds, beside the seed,
    an occupied cell whose distance to the center is the final radius and is
    at least the maximum radius [size/2 - 2]. *)
Theorem returned_grid_reaches_max size rng grid :
  25 <= size -> generate_dla_grid size rng = Returned grid ->
  exists c, occupied grid c /\ c <> center grid /\
    radius grid = Root (dist2_center grid c) /\
    Q_le_root (max_radius grid) (Root (dist2_center grid c)).
Proof.
  intros Hn Hg. destruct (generate_run_state _ _ _ Hg) as [Hr Hng].
  pose proof (run_state_good _ _ Hr) as G.
  pose proof Hng as Hng'. apply not_true_iff_false in Hng'.
  rewrite (growing_square size) in Hng' by exact (good_square _ _ G).
  destruct (good_radius _ _ G) as [Hi | [c [Hc [Hd He]]]].
  - exfalso. apply Hng'. rewrite Hi. cbn [initial_radius radicand]. nia.
  - exists c. split; [exact Hc |]. split; [| split; [exact He |]].
    + intros ->. unfold dist2_center in Hd. lia.
    + apply not_growing_Q_le_root in Hng. unfold radius in Hng.
      rewrite He in Hng. exact Hng.
Qed.

Lemma returned_grid_reaches_max_witness :
  exists c, occupied final25 c /\ c <> center final25 /\
    radius final25 = Root (dist2_center final25 c) /\
    Q_le_root (max_radius final25) (Root (dist2_center final25 c)).
Proof.
  apply (returned_grid_reaches_max 25 rng25 final25); [lia | exact final25_returned].
Defined.

(** ** X7: [has_neighbors] on the last row *)

(** X7: on an [n] by [n] array, [has_neighbors] raises [IndexError] at
    every position whose first coordinate is [n - 1] or more, whatever the
    cells hold: its first probe is the row below. *)
Theorem has_neighbors_last_row_raises n grid p :
  square n (data grid) -> n - 1 <= fst p ->
  has_neighbors grid p = Raise IndexError.
Proof.
  intros [Hlen _] Hp. unfold has_neighbors. cbn [vec_to_list _possible_directions map any_getitem].
  rewrite getitem_out; [reflexivity |].
  right. unfold padd. cbn [fst snd]. lia.
Qed.

Lemma has_neighbors_last_row_raises_witness :
  has_neighbors seed25 (24, 3) = Raise IndexError.
Proof.
  apply (has_neighbors_last_row_raises 25 seed25 (24, 3)).
  - split; [reflexivity |]. repeat constructor.
  - simpl. lia.
Defined.

(** ** X8: a walk stays near its entry point *)

Lemma random_walk_reach grid rnd : forall m i p grid' f q,
  random_walk grid rnd m i p = Ok (grid', f) ->
  f = Stuck q \/ f = Escaped q ->
  Z.abs (fst q - fst p) <= Z.of_nat m /\ Z.abs (snd q - snd p) <= Z.of_nat m.
Proof.
  induction m as [| m IH]; intros i p grid' f q; simpl random_walk.
  - intros H. injection H as <- <-. intros [Hf | Hf]; discriminate.
  - pose proof (directions_unit (rnd i)) as [D1 D2].
    set (p' := padd p (possible_directions grid !!! rnd i)).
    assert (Z.abs (fst p' - fst p) <= 1 /\ Z.abs (snd p' - snd p) <= 1) as [E1 E2].
    { unfold p', padd, possible_directions. cbn [fst snd].
      destruct (_possible_directions !!! rnd i) as [a b]. cbn [fst snd] in *. lia. }
    destruct (hits_edge grid p').
    + intros H. injection H as <- <-. intros [Hf | Hf]; [discriminate |].
      injection Hf as <-. lia.
    + destruct (has_neighbors grid p') as [[|] | e]; cbn [bind].
      * destruct (stick grid p') as [g2 | e]; cbn [bind]; [| discriminate].
        intros H. injection H as <- <-. intros [Hf | Hf]; [| discriminate].
        injection Hf as <-. lia.
      * intros H Hf. destruct (IH _ _ _ _ _ H Hf). lia.
      * discriminate.
Qed.

(** X8: the position at which a particle sticks or is discarded at the edge
    is at most 200 lattice steps away from its entry point, in each
    coordinate. *)
Theorem particle_within_budget grid d grid' f q :
  particle grid d = Ok (grid', f) ->
  f = Stuck q \/ f = Escaped q ->
  let entry := padd (center grid) (entry_offset d) in
  Z.abs (fst q - fst entry) <= 200 /\ Z.abs (snd q - snd entry) <= 200.
Proof.
  intros Hp Hf entry.
  exact (random_walk_reach grid (randint_0_7 d) 200 0 entry grid' f q Hp Hf).
Qed.

Lemma particle_within_budget_witness :
  let entry := padd (center seed25) (entry_offset (east_entry 4%fin)) in
  Z.abs (fst (13, 12) - fst entry) <= 200 /\ Z.abs (snd (13, 12) - snd entry) <= 200.
Proof.
  apply (particle_within_budget seed25 (east_entry 4%fin) seed25_next (Stuck (13, 12))).
  - vm_compute. reflexivity.
  - left. reflexivity.
Defined.

(** ** X9: one particle, at most one cell *)

(** X9: an iteration of the loop of a run changes the occupancy of at most
    one cell: there is a position such that the cells occupied afterwards
    are that position and the cells occupied before. *)
Theorem one_cell_per_particle size grid grid' :
  run_state size grid -> step grid grid' ->
  exists p, forall q, occupied grid' q <-> q = p \/ occupied grid q.
Proof.
  intros Hr Hst. destruct (step_cases _ _ _ Hr Hst) as [-> | [p [Hcm _]]].
  - exists (center grid). intros q. split; [auto |].
    intros [-> | Hq]; [| exact Hq]. exact (good_seed _ _ (run_state_good _ _ Hr)).
  - exists p. apply Hcm.
Qed.

Lemma one_cell_per_particle_witness :
  exists p, forall q, occupied seed25_next q <-> q = p \/ occupied seed25 q.
Proof.
  apply (one_cell_per_particle 25 seed25 seed25_next).
  - exact seed25_run_state.
  - exact seed25_step.
Defined.

(** * Further properties of [metropolis_hastings] *)

Module SamplerTraceFacts.
Import MetropolisHastings SamplerTrace.

Section Facts.

Variable density_func : float -> result float.
Variable size : Z.
Variable alpha : float.

Abbreviation ratio_of u1 s :=
  (probability_ratio density_func (propose alpha u1 s) s).

(** Induction along the iterations of the loop. *)
Lemma mh_loop_ind (P : list float -> mh_state -> Prop) :
  (forall rng s, Z.of_nat (length (output s)) = size -> P rng s) ->
  (forall s, Z.of_nat (length (output s)) <> size -> P [] s) ->
  (forall u1 rng1 s e, Z.of_nat (length (output s)) <> size ->
     ratio_of u1 s = Raise e -> P (u1 :: rng1) s) ->
  (forall u1 s r, Z.of_nat (length (output s)) <> size ->
     ratio_of u1 s = Ok r -> P [u1] s) ->
  (forall u1 u2 rng2 s r, Z.of_nat (length (output s)) <> size ->
     ratio_of u1 s = Ok r ->
     P rng2 (accept u2 r (propose alpha u1 s) s) -> P (u1 :: u2 :: rng2) s) ->
  forall rng s, P rng s.
Proof.
  intros Hdone Hnil Hraise Hone Hstep rng.
  assert (forall n rng s, (length rng <= n)%nat -> P rng s) as Hall.
  { induction n as [| n IH]; intros rng0 s Hlen;
      destruct (Z.eq_dec (Z.of_nat (length (output s))) size) as [He | Hne];
      try (apply Hdone; exact He).
    - destruct rng0; [apply Hnil; exact Hne | simpl in Hlen; lia].
    - destruct rng0 as [| u1 rng1]; [apply Hnil; exact Hne |].
      destruct (ratio_of u1 s) as [r | e] eqn:Hr; [| apply (Hraise _ _ _ e); assumption].
      destruct rng1 as [| u2 rng2]; [apply (Hone _ _ r); assumption |].
      apply (Hstep _ _ _ _ r); [assumption | assumption |].
      apply IH. simpl in Hlen. lia. }
  intros s. apply (Hall (length rng)). lia.
Qed.

Lemma mh_loop_done rng s :
  Z.of_nat (length (output s)) = size ->
  mh_loop density_func size alpha rng s = Returned (output s).
Proof. intros He. destruct rng; simpl; rewrite (proj2 (Z.eqb_eq _ _) He); reflexivity. Qed.

Lemma mh_loop_step u1 u2 rng2 s r :
  Z.of_nat (length (output s)) <> size -> ratio_of u1 s = Ok r ->
  mh_loop density_func size alpha (u1 :: u2 :: rng2) s =
  mh_loop density_func size alpha rng2 (accept u2 r (propose alpha u1 s) s).
Proof.
  intros Hne Hr. cbn [mh_loop]. rewrite (proj2 (Z.eqb_neq _ _) Hne), Hr. reflexivity.
Qed.

Lemma mh_loop_stops_short rng s out :
  Z.of_nat (length (output s)) <> size ->
  (rng = [] \/ (exists u1 rng1 e, rng = u1 :: rng1 /\ ratio_of u1 s = Raise e) \/
   (exists u1 r, rng = [u1] /\ ratio_of u1 s = Ok r)) ->
  mh_loop density_func size alpha rng s <> Returned out.
Proof.
  intros Hne [-> | [[u1 [rng1 [e [-> Hr]]]] | [u1 [r [-> Hr]]]]];
    cbn [mh_loop]; rewrite (proj2 (Z.eqb_neq _ _) Hne), ?Hr; discriminate.
Qed.

(** The list returned has [size] elements. *)
Lemma mh_loop_length rng s out :
  mh_loop density_func size alpha rng s = Returned out ->
  Z.of_nat (length out) = size.
Proof.
  revert out. pattern rng, s. apply mh_loop_ind; clear rng s.
  - intros rng s He out. rewrite mh_loop_done by exact He.
    intros H. injection H as <-. exact He.
  - intros s Hne out H. exfalso. revert H. apply mh_loop_stops_short; auto.
  - intros u1 rng1 s e Hne Hr out H. exfalso. revert H.
    apply mh_loop_stops_short; [exact Hne |]. right. left. eauto.
  - intros u1 s r Hne Hr out H. exfalso. revert H.
    apply mh_loop_stops_short; [exact Hne |]. right. right. eauto.
  - intros u1 u2 rng2 s r Hne Hr IH out. rewrite (mh_loop_step _ _ _ _ r) by assumption.
    apply IH.
Qed.

(** With a negative [burn] nothing is ever appended. *)
Lemma mh_loop_negative_burn rng s out :
  (burn s < 0)%Z -> output s = [] -> size <> 0%Z ->
  mh_loop density_func size alpha rng s <> Returned out.
Proof.
  revert out. pattern rng, s. apply mh_loop_ind; clear rng s.
  - intros rng s He out Hb Ho Hs. rewrite Ho in He. simpl in He. lia.
  - intros s Hne out _ _ _. apply mh_loop_stops_short; auto.
  - intros u1 rng1 s e Hne Hr out _ _ _.
    apply mh_loop_stops_short; [exact Hne |]. right. left. eauto.
  - intros u1 s r Hne Hr out _ _ _.
    apply mh_loop_stops_short; [exact Hne |]. right. right. eauto.
  - intros u1 u2 rng2 s r Hne Hr IH out Hb Ho Hs.
    rewrite (mh_loop_step _ _ _ _ r) by assumption.
    apply IH; [| | exact Hs]; unfold accept;
      destruct (PrimFloat.ltb _ r); try assumption;
      destruct (Z.eqb_spec (burn s) 0); cbn [burn output]; try lia; assumption.
Qed.

(** The list returned is what was already collected followed by the
    accepted candidates, less the first [burn] of them. *)
Lemma mh_loop_burn_in rng s out :
  (0 <= burn s)%Z ->
  mh_loop density_func size alpha rng s = Returned out ->
  out = output s ++ drop (Z.to_nat (burn s)) (accepted density_func size alpha rng s).
Proof.
  revert out. pattern rng, s. apply mh_loop_ind; clear rng s.
  - intros rng s He out Hb. rewrite mh_loop_done by exact He.
    intros H. injection H as <-.
    destruct rng; simpl; rewrite (proj2 (Z.eqb_eq _ _) He);
      rewrite drop_nil, app_nil_r; reflexivity.
  - intros s Hne out _ H. exfalso. revert H. apply mh_loop_stops_short; auto.
  - intros u1 rng1 s e Hne Hr out _ H. exfalso. revert H.
    apply mh_loop_stops_short; [exact Hne |]. right. left. eauto.
  - intros u1 s r Hne Hr out _ H. exfalso. revert H.
    apply mh_loop_stops_short; [exact Hne |]. right. right. eauto.
  - intros u1 u2 rng2 s r Hne Hr IH out Hb.
    rewrite (mh_loop_step _ _ _ _ r) by assumption. intros H.
    cbn [accepted]. rewrite (proj2 (Z.eqb_neq _ _) Hne), Hr.
    revert IH H. unfold accept.
    destruct (PrimFloat.ltb (uniform 0 1 u2) r).
    + destruct (Z.eqb_spec (burn s) 0) as [Hz | Hnz]; intros IH H.
      * specialize (IH out ltac:(cbn [burn]; lia) H). cbn [output burn] in IH.
        rewrite Hz in *. simpl. rewrite IH, <- app_assoc. reflexivity.
      * specialize (IH out ltac:(cbn [burn]; lia) H). cbn [output burn] in IH.
        rewrite IH. f_equal.
        replace (Z.to_nat (burn s)) with (S (Z.to_nat (burn s - 1))) by lia.
        reflexivity.
    + intros IH H. rewrite (IH out Hb H). reflexivity.
Qed.

End Facts.

End SamplerTraceFacts.

(** ** X10: the number of samples *)

(** X10: when [metropolis_hastings] returns, the list returned has exactly
    [size] elements; in particular it never returns for a negative
    [size]. *)
Theorem metropolis_hastings_length
    (density_func : float -> result float) (size : Z) (alpha : float)
    (burn0 : Z) (rng : list float) (out : list float) :
  MetropolisHastings.metropolis_hastings density_func size alpha burn0 rng = Returned out ->
  Z.of_nat (length out) = size /\ 0 <= size.
Proof.
  unfold MetropolisHastings.metropolis_hastings. destruct rng as [| u0 rng']; [discriminate |].
  intros H. apply SamplerTraceFacts.mh_loop_length in H. lia.
Qed.

Lemma metropolis_hastings_length_witness :
  Z.of_nat (length [0.125%float]) = 1 /\ 0 <= 1.
Proof.
  apply (metropolis_hastings_length MetropolisHastings.tent 1 0.25%float 1
           SamplerTrace.tent_draws [0.125%float]).
  vm_compute. reflexivity.
Defined.

(** ** X11: a negative burn-in *)

(** X11: with a negative [burn] and a [size] other than 0,
    [metropolis_hastings] never returns: the counter moves away from 0 and
    no sample is ever kept. *)
Theorem metropolis_hastings_negative_burn
    (density_func : float -> result float) (size : Z) (alpha : float)
    (burn0 : Z) (rng : list float) (out : list float) :
  burn0 < 0 -> size <> 0 ->
  MetropolisHastings.metropolis_hastings density_func size alpha burn0 rng <> Returned out.
Proof.
  intros Hb Hs. unfold MetropolisHastings.metropolis_hastings.
  destruct rng as [| u0 rng']; [discriminate |].
  apply SamplerTraceFacts.mh_loop_negative_burn; [exact Hb | reflexivity | exact Hs].
Qed.

Lemma metropolis_hastings_negative_burn_witness :
  MetropolisHastings.metropolis_hastings MetropolisHastings.tent 1 0.25%float (-1)
    SamplerTrace.tent_draws <> Returned [0.125%float].
Proof.
  apply (metropolis_hastings_negative_burn MetropolisHastings.tent 1 0.25%float (-1)
           SamplerTrace.tent_draws [0.125%float]); lia.
Defined.

(** ** X12: what the burn-in discards *)

(** X12: with [burn >= 0], the list returned by [metropolis_hastings] is the
    sequence of accepted candidates without its first [burn] elements; for a
    [size] of at least 1 exactly [burn + size] candidates were accepted. *)
Theorem metropolis_hastings_burn_in
    (density_func : float -> result float) (size : Z) (alpha : float)
    (burn0 : Z) (u0 : float) (rng : list float) (out : list float) :
  0 <= burn0 ->
  MetropolisHastings.metropolis_hastings density_func size alpha burn0 (u0 :: rng)
    = Returned out ->
  let s0 := MetropolisHastings.mkState
              (MetropolisHastings.uniform (PrimFloat.opp alpha) alpha u0) [] burn0 in
  let moves := SamplerTrace.accepted density_func size alpha rng s0 in
  out = drop (Z.to_nat burn0) moves /\
  (1 <= size -> Z.of_nat (length moves) = burn0 + size).
Proof.
  intros Hb H s0 moves. unfold MetropolisHastings.metropolis_hastings in H. fold s0 in H.
  pose proof (SamplerTraceFacts.mh_loop_length _ _ _ _ _ _ H) as Hlen.
  apply SamplerTraceFacts.mh_loop_burn_in in H; [| exact Hb].
  cbn [MetropolisHastings.output MetropolisHastings.burn s0] in H.
  rewrite app_nil_l in H. fold s0 in H. fold moves in H.
  split; [exact H |]. intros Hs. rewrite H in Hlen. rewrite length_drop in Hlen. lia.
Qed.

Lemma metropolis_hastings_burn_in_witness :
  let s0 := MetropolisHastings.mkState
              (MetropolisHastings.uniform (PrimFloat.opp 0.25%float) 0.25%float 0.5%float)
              [] 1 in
  let moves := SamplerTrace.accepted MetropolisHastings.tent 1 0.25%float
                 [0.5; 0.5; 0.75; 0.5]%float s0 in
  [0.125%float] = drop (Z.to_nat 1) moves /\
  (1 <= 1 -> Z.of_nat (length moves) = 1 + 1).
Proof.
  apply (metropolis_hastings_burn_in MetropolisHastings.tent 1 0.25%float 1 0.5%float
           [0.5; 0.5; 0.75; 0.5]%float [0.125%float]).
  - lia.
  - vm_compute. reflexivity.
Defined.

(** * The smallest size that grows *)

(** X13: on the freshly seeded grid the loop test [radius < max_radius]
    holds exactly for the sizes of at least 25, so these are the sizes for
    which particles are released; with no draw available the run on such a
    size is still waiting, and on a smaller positive size it has returned. *)
Theorem loop_entered_from_25 size grid :
  seeded_grid size = Ok grid ->
  (growing grid = true <-> 25 <= size) /\
  (generate_dla_grid size [] = NeedsMoreDraws <-> 25 <= size).
Proof.
  intros Hg. pose proof (seeded_grid_size _ _ Hg) as Hn.
  destruct (seeded_grid_good size Hn) as [g [Hg' [G [Hrad _]]]].
  rewrite Hg in Hg'. injection Hg' as <-.
  assert (growing grid = true <-> 25 <= size) as Hiff.
  { rewrite (growing_square size) by exact (good_square _ _ G).
    rewrite Hrad. cbn [initial_radius radicand]. split; [nia | nia]. }
  split; [exact Hiff |].
  unfold generate_dla_grid. rewrite Hg. simpl.
  destruct (growing grid).
  - split; [intros _; apply Hiff; reflexivity | reflexivity].
  - split; [discriminate |]. intros H. apply Hiff in H. discriminate.
Qed.

Lemma loop_entered_from_25_witness :
  (growing seed25 = true <-> 25 <= 25) /\
  (generate_dla_grid 25 [] = NeedsMoreDraws <-> 25 <= 25).
Proof. apply (loop_entered_from_25 25 seed25). vm_compute. reflexivity. Defined.
